(** * Explorador: the lexer of "C-rvicio Militar" (src/explorador.py)

    A shallow embedding of the scanner: the pattern table [TOKEN_SPEC], the
    backtracking matcher that [re] runs on it, [finditer], and the loop of
    [Explorador.tokenizar] with its two helpers.

    Text (the input, lexemes, messages) is a list of Unicode code points.
    The names the program fixes in its own source (group names, token
    kinds, dictionary keys) are ordinary strings. *)

From Stdlib Require Import String Ascii DecimalString.
From Stdlib Require Import NArith ZArith Bool Arith Lia List.
Import ListNotations.
Open Scope string_scope.
Open Scope list_scope.
Open Scope nat_scope.

Set Implicit Arguments.

(** ** Text *)

Definition char := N.
Definition text := list char.

Definition ch (a : ascii) : char := N_of_ascii a.
Definition str (s : string) : text := map N_of_ascii (list_ascii_of_string s).

Definition LF : char := 10%N.
Definition QUOTE : char := 34%N.

Fixpoint text_eqb (a b : text) : bool :=
  match a, b with
  | [], [] => true
  | x :: a', y :: b' => N.eqb x y && text_eqb a' b'
  | _, _ => false
  end.

(** [texto[a:b]] for offsets [0 <= a], [0 <= b]. *)
Definition slice (t : text) (a b : nat) : text := firstn (b - a) (skipn a t).

(** [s.replace(c, by)] for a one-character needle. *)
Definition replace (s : text) (c : char) (by_ : text) : text :=
  flat_map (fun x => if N.eqb x c then by_ else [x]) s.

(** [s.count(c)] for a one-character needle. *)
Definition count (s : text) (c : char) : Z :=
  Z.of_nat (length (filter (N.eqb c) s)).

(** [s.rfind(c)] for a one-character needle: the last index, or -1. *)
Fixpoint rfind_from (s : text) (c : char) (i : Z) (found : Z) : Z :=
  match s with
  | [] => found
  | x :: s' => rfind_from s' c (i + 1) (if N.eqb x c then i else found)
  end.
Definition rfind (s : text) (c : char) : Z := rfind_from s c 0 (-1).

(** ** Regular expressions, as [re] reads the patterns of the table *)

(** What [\s] matches in a [str] pattern: the code points for which
    [str.isspace] holds. *)
Definition is_space (c : char) : bool :=
  ((9 <=? c) && (c <=? 13) || (28 <=? c) && (c <=? 32)
   || (c =? 133) || (c =? 160) || (c =? 5760)
   || (8192 <=? c) && (c <=? 8202)
   || (c =? 8232) || (c =? 8233) || (c =? 8239) || (c =? 8287)
   || (c =? 12288))%N.

(** An item between brackets. *)
Inductive item : Type :=
| One (c : char)            (* a single character, escaped or not *)
| Range (lo hi : char)      (* lo-hi *)
| Space.                    (* \s *)

Definition item_has (i : item) (c : char) : bool :=
  match i with
  | One x => N.eqb c x
  | Range lo hi => (lo <=? c)%N && (c <=? hi)%N
  | Space => is_space c
  end.

Inductive regex : Type :=
| Eps                          (* the empty pattern *)
| Lit (c : char)               (* a literal character *)
| Any (items : list item)      (* [...] *)
| NoneOf (items : list item)   (* [^...] *)
| Seq (r1 r2 : regex)          (* r1 r2 *)
| Alt (r1 r2 : regex)          (* r1|r2 *)
| Star (r : regex).            (* r*, greedy *)

Definition Plus (r : regex) : regex := Seq r (Star r).   (* r+ *)
Definition Opt (r : regex) : regex := Alt r Eps.         (* r? *)

Fixpoint Lits (s : text) : regex :=
  match s with
  | [] => Eps
  | [c] => Lit c
  | c :: s' => Seq (Lit c) (Lits s')
  end.

Fixpoint Alts (rs : list regex) : regex :=
  match rs with
  | [] => Eps
  | [r] => r
  | r :: rs' => Alt r (Alts rs')
  end.

Definition one_char (ok : char -> bool) (A : Type) (s : text)
    (k : text -> option A) : option A :=
  match s with
  | c :: s' => if ok c then k s' else None
  | [] => None
  end.

(** The greedy loop of [r*]: one more round of the body while it consumes
    something, the rest of the pattern otherwise; when the rest fails after
    a round, the round is given back. *)
Fixpoint star_loop (A : Type)
    (body : text -> (text -> option A) -> option A)
    (n : nat) (s : text) (k : text -> option A) : option A :=
  match n with
  | 0 => k s
  | S n' =>
      match body s (fun s' => if (length s' <? length s)%nat
                              then star_loop body n' s' k else None) with
      | Some a => Some a
      | None => k s
      end
  end.

(** The backtracking matcher: [rmatch r s k] matches [r] at the head of [s]
    and hands what is left to [k], the rest of the pattern; alternatives are
    tried left to right, repetition takes as much as it can first. *)
Fixpoint rmatch (A : Type) (r : regex) (s : text) (k : text -> option A)
    : option A :=
  match r with
  | Eps => k s
  | Lit c => one_char (N.eqb c) s k
  | Any items => one_char (fun x => existsb (fun i => item_has i x) items) s k
  | NoneOf items =>
      one_char (fun x => negb (existsb (fun i => item_has i x) items)) s k
  | Seq r1 r2 => rmatch r1 s (fun s' => rmatch r2 s' k)
  | Alt r1 r2 =>
      match rmatch r1 s k with
      | Some a => Some a
      | None => rmatch r2 s k
      end
  | Star r1 => star_loop (rmatch r1) (length s) s k
  end.

(** [pattern.match(s)]: the length of the match at the head of [s]. *)
Definition match_len (r : regex) (s : text) : option nat :=
  rmatch r s (fun s' => Some (length s - length s')).

(** [re.search(pattern, s)] as a truth value. *)
Fixpoint re_search (r : regex) (s : text) : bool :=
  match match_len r s with
  | Some _ => true
  | None => match s with
            | [] => false
            | _ :: s' => re_search r s'
            end
  end.

(** ** The pattern table *)

Definition PALABRAS_CLAVE : list string :=
  [ "ejercito"; "global"; "var"; "mision"; "severidad"; "estricto";
    "advertencia"; "revisar"; "ejecutar"; "confirmar";
    "si"; "por"; "defecto"; "estrategia"; "atacar"; "mientras";
    "retirada"; "con"; "abortar"; "avanzar";
    "afirmativo"; "negativo"; "nulo";
    "reportar"; "recibir"; "clasificarNumero"; "clasificarMensaje"; "azar";
    "aRangoSuperior"; "aRangoInferior"; "acampar"; "calibre"; "truncar" ].

Definition MULTI_OPS : list regex :=
  map (fun s => Lits (str s))
      ["||"; "&&"; "=="; "!="; "<="; ">="; "+="; "-="; "*="; "/="; "%="].

Definition SINGLE_OPS : list regex :=
  map (fun s => Lits (str s)) ["="; "+"; "-"; "*"; "/"; "%"; "<"; ">"; "!"].

Definition PUNCT : list regex :=
  map (fun s => Lits (str s)) ["("; ")"; "{"; "}"; "["; "]"; "."; ","; ":"].

Definition OPS_RE : regex := Alts (MULTI_OPS ++ SINGLE_OPS).
Definition PUNCT_RE : regex := Alts PUNCT.

Definition TAB : char := 9%N.
Definition VT : char := 11%N.
Definition FF : char := 12%N.
Definition CR : char := 13%N.

Definition digit : item := Range (ch "0") (ch "9").
Definition upper : item := Range (ch "A") (ch "Z").
Definition lower : item := Range (ch "a") (ch "z").

Definition COMENT_BLOQ : regex :=      (* /\*(?:[^*]|\*[^/])*\*/ *)
  Seq (Lits (str "/*"))
      (Seq (Star (Alt (NoneOf [One (ch "*")])
                      (Seq (Lit (ch "*")) (NoneOf [One (ch "/")]))))
           (Lits (str "*/"))).

Definition COMENT_LINEA : regex :=     (* //[^\n]*(?:\r?\n)? *)
  Seq (Lits (str "//"))
      (Seq (Star (NoneOf [One LF]))
           (Opt (Seq (Opt (Lit CR)) (Lit LF)))).

Definition ESPACIO : regex :=          (* [ \t\f\v\r]+ *)
  Plus (Any [One (ch " "); One TAB; One FF; One VT; One CR]).

Definition NL : regex :=               (* (?:\r?\n)+ *)
  Plus (Seq (Opt (Lit CR)) (Lit LF)).

Definition CADENA : regex :=   (* quote, [^quote \n]*, quote *)
  Seq (Lit QUOTE) (Seq (Star (NoneOf [One QUOTE; One LF])) (Lit QUOTE)).

Definition NUM_FLOTANTE : regex :=     (* [0-9]+\.[0-9]+ *)
  Seq (Plus (Any [digit])) (Seq (Lit (ch ".")) (Plus (Any [digit]))).

Definition NUM_ENTERO : regex :=       (* [0-9]+ *)
  Plus (Any [digit]).

Definition IDENT : regex :=            (* [A-Za-z_][A-Za-z0-9_]* *)
  Seq (Any [upper; lower; One (ch "_")])
      (Star (Any [upper; lower; digit; One (ch "_")])).

Definition TOKEN_SPEC : list (string * regex) :=
  [ ("COMENT_BLOQ", COMENT_BLOQ);
    ("COMENT_LINEA", COMENT_LINEA);
    ("ESPACIO", ESPACIO);
    ("NL", NL);
    ("CADENA", CADENA);
    ("NUM_FLOTANTE", NUM_FLOTANTE);
    ("NUM_ENTERO", NUM_ENTERO);
    ("OPERADOR", OPS_RE);
    ("SIMBOLO", PUNCT_RE);
    ("IDENT", IDENT) ].

(** [MASTER_RE.match(s)]: the named groups are the alternatives of one
    pattern, so the first rule of the table that matches at the head of [s]
    gives the match, and its name is [lastgroup]. *)
Fixpoint first_rule (rules : list (string * regex)) (s : text)
    : option (string * nat) :=
  match rules with
  | [] => None
  | (nombre, patron) :: rest =>
      match match_len patron s with
      | Some n => Some (nombre, n)
      | None => first_rule rest s
      end
  end.

Definition MASTER_RE (s : text) : option (string * nat) :=
  first_rule TOKEN_SPEC s.

(** ** [finditer] *)

Record Match : Type := mkMatch {
  m_start : nat;
  m_end : nat;
  lastgroup : string
}.

(** [m.group(tipo)]: each named group spans the whole of its match. *)
Definition group (m : Match) (texto : text) : text :=
  slice texto (m_start m) (m_end m).

(** [MASTER_RE.search] on the suffix [s] that starts at offset [p]: the
    leftmost offset at which the pattern matches. *)
Fixpoint search (s : text) (p : nat) : option Match :=
  match MASTER_RE s with
  | Some (g, n) => Some (mkMatch p (p + n) g)
  | None => match s with
            | [] => None
            | _ :: s' => search s' (S p)
            end
  end.

(** The iterator: search from the cursor, yield the match, go on from its
    end.  One unit of fuel pays for one search.  No rule of the table
    matches the empty text (lemma [MASTER_RE_consumes]), so the step the
    engine takes after an empty match is never taken; it is modelled as one
    character forward. *)
Fixpoint finditer_from (fuel : nat) (texto : text) (p : nat)
    : option (list Match) :=
  match fuel with
  | 0 => None
  | S fuel' =>
      match search (skipn p texto) p with
      | None => Some []
      | Some m =>
          let next := if (m_end m =? m_start m)%nat then S (m_end m)
                      else m_end m in
          match finditer_from fuel' texto next with
          | Some ms => Some (m :: ms)
          | None => None
          end
      end
  end.

Definition finditer (texto : text) : option (list Match) :=
  finditer_from (S (length texto)) texto 0.

(** ** Tokens, errors, results *)

Inductive value : Type :=
| VInt (z : Z)
| VStr (s : text).

Definition dict := list (string * value).

Fixpoint dict_set (d : dict) (k : string) (v : value) : dict :=
  match d with
  | [] => [(k, v)]
  | (k', v') :: d' =>
      if String.eqb k' k then (k', v) :: d' else (k', v') :: dict_set d' k v
  end.

(** [d.update(u)] *)
Definition dict_update (d u : dict) : dict :=
  fold_left (fun acc kv => dict_set acc (fst kv) (snd kv)) u d.

Fixpoint dict_get (d : dict) (k : string) : option value :=
  match d with
  | [] => None
  | (k', v) :: d' => if String.eqb k' k then Some v else dict_get d' k
  end.

Record Token : Type := mkToken {
  lexema : text;
  tipo : string;
  atributos : dict
}.

Inductive Exception : Type :=
| ExploradorError (msg : text)
| TypeError.

(** What a call does: it returns, it raises, or the fuel of the model ran
    out before it did either. *)
Inductive outcome (A : Type) : Type :=
| Return (a : A)
| Raise (e : Exception)
| NoFuel.
Arguments Return {A} a.
Arguments Raise {A} e.
Arguments NoFuel {A}.

Definition bind (A B : Type) (m : outcome A) (f : A -> outcome B)
    : outcome B :=
  match m with
  | Return a => f a
  | Raise e => Raise e
  | NoFuel => NoFuel
  end.

Notation "x <- m ;; f" := (bind m (fun x => f))
  (at level 61, m at next level, right associativity).

(** ** The explorer *)

Record Explorador : Type := mkExplorador {
  con_nuevaslineas : bool;
  tolerante : bool
}.

(** The text of an integer in an f-string. *)
Definition repr (z : Z) : text := str (NilZero.string_of_int (Z.to_int z)).

Definition a_acute : char := 225%N.

(** The two messages of [tokenizar]; [al_final] tells the one after the loop
    from the one inside it. *)
Definition mensaje (al_final : bool) (linea col : Z) (excerpt : text) : text :=
  str "Car" ++ [a_acute] ++ str "cter no reconocido "
  ++ (if al_final then str "al final " else [])
  ++ str "en fila " ++ repr linea ++ str ", columna " ++ repr col
  ++ str ": '" ++ excerpt ++ str "'".

Definition _clasificar (tipo : string) (lexema : text) : string * dict :=
  if String.eqb tipo "IDENT" then
    if existsb (fun k => text_eqb (str k) lexema) PALABRAS_CLAVE
    then ("PALABRA_CLAVE", [])
    else ("IDENT", [])
  else if String.eqb tipo "NUM_ENTERO" then ("NUM_ENTERO", [])
  else if String.eqb tipo "NUM_FLOTANTE" then ("NUM_FLOTANTE", [])
  else if String.eqb tipo "CADENA" then
    ("CADENA", [("valor", VStr (slice lexema 1 (length lexema - 1)))])
  else if String.eqb tipo "OPERADOR" then ("OPERADOR", [])
  else if String.eqb tipo "SIMBOLO" then ("SIMBOLO", [])
  else (tipo, []).

(** Of its five parameters the body reads [chunk] alone. *)
Definition _consume_desconocido (chunk : text) (linea col0 : Z)
    (texto : text) (tokens : list Token) : bool :=
  match chunk with
  | [] => true
  | _ => if re_search (NoneOf [Space]) (replace chunk LF []) then false
         else true
  end.

Record estado : Type := mkEstado {
  tokens : list Token;
  linea : Z;
  linea_inicio : Z;
  pos : nat
}.

(** The gap test at the top of the loop body.  [Token] is a dataclass of
    three fields; the call in the tolerant branch hands it five positional
    arguments, which its constructor refuses with [TypeError] before
    anything is appended. *)
Definition hueco (self : Explorador) (texto : text) (st : estado)
    (inicio : nat) : outcome unit :=
  if negb (inicio =? pos st)%nat then
    let bad_chunk := slice texto (pos st) inicio in
    if negb (_consume_desconocido bad_chunk (linea st)
               (Z.of_nat (pos st) - linea_inicio st) texto (tokens st))
    then
      let col := (Z.of_nat (pos st) - linea_inicio st + 1)%Z in
      let excerpt := replace (slice bad_chunk 0 20) LF (str "\n") in
      let msg := mensaje false (linea st) col excerpt in
      if tolerante self then Raise TypeError
      else Raise (ExploradorError msg)
    else Return tt
  else Return tt.

(** One round of the [for] loop. *)
Definition cuerpo (self : Explorador) (texto : text) (st : estado)
    (m : Match) : outcome estado :=
  let inicio := m_start m in
  let fin := m_end m in
  _ <- hueco self texto st inicio ;;
  let tipo := lastgroup m in
  let lexema := group m texto in
  let tok_linea := linea st in
  let tok_col := (Z.of_nat (m_start m) - linea_inicio st + 1)%Z in
  if String.eqb tipo "NL" then
    let attrs := [("fila", VInt tok_linea); ("columna", VInt tok_col)] in
    let tokens1 := if con_nuevaslineas self
                   then tokens st ++ [mkToken lexema "NL" attrs]
                   else tokens st in
    let nl_count := count lexema LF in
    let linea1 := (linea st + nl_count)%Z in
    let last_nl := rfind lexema LF in
    let linea_inicio1 := if negb (last_nl =? -1)%Z
                         then (Z.of_nat (m_start m) + last_nl + 1)%Z
                         else linea_inicio st in
    Return (mkEstado tokens1 linea1 linea_inicio1 fin)
  else if existsb (String.eqb tipo) ["ESPACIO"; "COMENT_LINEA"; "COMENT_BLOQ"]
  then Return (mkEstado (tokens st) (linea st) (linea_inicio st) fin)
  else
    let (tipo1, attrs) := _clasificar tipo lexema in
    let attrs1 :=
      dict_update attrs [("fila", VInt tok_linea); ("columna", VInt tok_col)] in
    Return (mkEstado (tokens st ++ [mkToken lexema tipo1 attrs1])
                     (linea st) (linea_inicio st) fin).

(** [for m in MASTER_RE.finditer(texto)] *)
Fixpoint bucle (self : Explorador) (texto : text) (ms : list Match)
    (st : estado) : outcome estado :=
  match ms with
  | [] => Return st
  | m :: ms' => st1 <- cuerpo self texto st m ;; bucle self texto ms' st1
  end.

(** What follows the loop: the text left after the last match. *)
Definition resto (self : Explorador) (texto : text) (st : estado)
    : outcome (list Token) :=
  let longitud := length texto in
  if (pos st <? longitud)%nat then
    let bad_chunk := slice texto (pos st) longitud in
    if negb (_consume_desconocido bad_chunk (linea st)
               (Z.of_nat (pos st) - linea_inicio st) texto (tokens st))
    then
      let col := (Z.of_nat (pos st) - linea_inicio st + 1)%Z in
      let excerpt := replace (slice bad_chunk 0 20) LF (str "\n") in
      let msg := mensaje true (linea st) col excerpt in
      if tolerante self then
        let attrs := [("fila", VInt (linea st)); ("columna", VInt col);
                      ("motivo", VStr (str "desconocido"))] in
        Return (tokens st ++ [mkToken bad_chunk "ERROR" attrs])
      else Raise (ExploradorError msg)
    else Return (tokens st)
  else Return (tokens st).

Definition tokenizar (self : Explorador) (texto : text)
    : outcome (list Token) :=
  match finditer texto with
  | None => NoFuel
  | Some ms =>
      st <- bucle self texto ms (mkEstado [] 1%Z 0%Z 0) ;;
      resto self texto st
  end.

(** ** The spans the scanner cuts the input into *)

(** In source order: [Hueco] for a [bad_chunk] ([texto[pos:inicio]] before a
    match, [texto[pos:longitud]] after the last one), [Acierto] for the
    lexeme of a match. *)
Inductive segmento : Type :=
| Hueco (chunk : text)
| Acierto (m : Match) (lexema : text).

Definition span (sg : segmento) : text :=
  match sg with
  | Hueco chunk => chunk
  | Acierto _ lexema => lexema
  end.

Fixpoint segmentos (texto : text) (p : nat) (ms : list Match)
    : list segmento :=
  match ms with
  | [] => if p <? length texto then [Hueco (slice texto p (length texto))]
          else []
  | m :: ms' =>
      (if negb (m_start m =? p) then [Hueco (slice texto p (m_start m))]
       else [])
      ++ Acierto m (group m texto) :: segmentos texto (m_end m) ms'
  end.

(** The gaps that have a match after them: the chunks the loop body tests. *)
Fixpoint huecos_internos (texto : text) (p : nat) (ms : list Match)
    : list text :=
  match ms with
  | [] => []
  | m :: ms' =>
      (if negb (m_start m =? p) then [slice texto p (m_start m)] else [])
      ++ huecos_internos texto (m_end m) ms'
  end.

(** The cursor moves forward: every match starts at or after the cursor and
    ends after its own start, and the next search starts at its end. *)
Fixpoint avanza (p : nat) (ms : list Match) : Prop :=
  match ms with
  | [] => True
  | m :: ms' => p <= m_start m /\ m_start m < m_end m /\ avanza (m_end m) ms'
  end.

(** [l1] is [l2] with some elements left out, order kept. *)
Inductive subseq (A : Type) : list A -> list A -> Prop :=
| subseq_nil : subseq [] []
| subseq_skip x l1 l2 : subseq l1 l2 -> subseq l1 (x :: l2)
| subseq_take x l1 l2 : subseq l1 l2 -> subseq (x :: l1) (x :: l2).

(** ** What the matcher accepts *)

Inductive matches : regex -> text -> Prop :=
| M_Eps : matches Eps []
| M_Lit c : matches (Lit c) [c]
| M_Any items c :
    existsb (fun i => item_has i c) items = true -> matches (Any items) [c]
| M_NoneOf items c :
    existsb (fun i => item_has i c) items = false ->
    matches (NoneOf items) [c]
| M_Seq r1 r2 u v :
    matches r1 u -> matches r2 v -> matches (Seq r1 r2) (u ++ v)
| M_AltL r1 r2 u : matches r1 u -> matches (Alt r1 r2) u
| M_AltR r1 r2 u : matches r2 u -> matches (Alt r1 r2) u
| M_Star0 r : matches (Star r) []
| M_StarS r u v :
    matches r u -> matches (Star r) v -> matches (Star r) (u ++ v).

(** The least number of characters a pattern takes. *)
Fixpoint min_len (r : regex) : nat :=
  match r with
  | Eps => 0
  | Lit _ | Any _ | NoneOf _ => 1
  | Seq r1 r2 => min_len r1 + min_len r2
  | Alt r1 r2 => Nat.min (min_len r1) (min_len r2)
  | Star _ => 0
  end.

(** ** Notions the statements use *)

(** The matches in the order they are yielded, from cursor [p]: each lies
    inside the text at or after the cursor, is not empty, is what the
    pattern gives at its start, and the next one is sought from its end. *)
Fixpoint encadenado (texto : text) (p : nat) (ms : list Match) : Prop :=
  match ms with
  | [] => True
  | m :: ms' =>
      p <= m_start m /\ m_start m < m_end m /\ m_end m <= length texto /\
      MASTER_RE (skipn (m_start m) texto)
        = Some (lastgroup m, m_end m - m_start m) /\
      encadenado texto (m_end m) ms'
  end.

(** Each span is a stretch [texto[a:b]] of the input with [a < b]. *)
Definition tramo (texto : text) (s : text) : Prop :=
  exists a b, a < b /\ b <= length texto /\ s = slice texto a b.

(** A chunk with a character that [\s] does not match. *)
Definition malo (chunk : text) : bool :=
  existsb (fun c => negb (is_space c)) chunk.

(** The loop and what follows it, from a state on. *)
Definition desde (self : Explorador) (texto : text) (ms : list Match)
    (st : estado) : outcome (list Token) :=
  st1 <- bucle self texto ms st ;; resto self texto st1.

(** The body of a string literal: neither a quote nor a newline. *)
Definition interior (c : char) : Prop := c <> QUOTE /\ c <> LF.

(** What holds of a token of kind [CADENA]: its lexeme is a quoted body and
    its [valor] is that body, next to its row and column. *)
Definition cadena_ok (t : Token) : Prop :=
  tipo t = "CADENA" ->
  exists body fila columna,
    Forall interior body /\
    lexema t = QUOTE :: body ++ [QUOTE] /\
    atributos t = [("valor", VStr body); ("fila", VInt fila);
                   ("columna", VInt columna)].

Definition estricto (nl : bool) : Explorador := mkExplorador nl false.
Definition tolerante_ (nl : bool) : Explorador := mkExplorador nl true.

(** Kind and lexeme of each token of a result. *)
Definition resumen (o : outcome (list Token))
    : outcome (list (string * text)) :=
  t <- o ;; Return (map (fun x => (tipo x, lexema x)) t).

(** ** Output *)

(** [sep.join(parts)] *)
Fixpoint join (sep : text) (parts : list text) : text :=
  match parts with
  | [] => []
  | [x] => x
  | x :: rest => x ++ sep ++ join sep rest
  end.

Definition BACKSLASH : char := 92%N.

(** One lower-case hexadecimal digit. *)
Definition hex (n : N) : char := (if n <? 10 then 48 + n else 87 + n)%N.

(** What [json.dumps(..., ensure_ascii=False)] writes for one character of
    a string: an escape for the quote, the backslash and the control
    characters, the character itself otherwise. *)
Definition json_char (c : char) : text :=
  if (c =? QUOTE)%N then [BACKSLASH; QUOTE]
  else if (c =? BACKSLASH)%N then [BACKSLASH; BACKSLASH]
  else if (c =? 8)%N then [BACKSLASH; ch "b"]
  else if (c =? FF)%N then [BACKSLASH; ch "f"]
  else if (c =? LF)%N then [BACKSLASH; ch "n"]
  else if (c =? CR)%N then [BACKSLASH; ch "r"]
  else if (c =? TAB)%N then [BACKSLASH; ch "t"]
  else if (c <? 32)%N
       then [BACKSLASH; ch "u"; ch "0"; ch "0"; hex (c / 16); hex (c mod 16)]
  else [c].

Definition json_str (s : text) : text :=
  [QUOTE] ++ flat_map json_char s ++ [QUOTE].

Definition json_value (v : value) : text :=
  match v with
  | VInt z => repr z
  | VStr s => json_str s
  end.

(** [json.dumps(d, ensure_ascii=False)] for a dictionary of attributes. *)
Definition json_dumps (d : dict) : text :=
  str "{"
  ++ join (str ", ")
       (map (fun kv => json_str (str (fst kv)) ++ str ": "
                       ++ json_value (snd kv)) d)
  ++ str "}".

Definition linea_texto (t : Token) : text :=
  str "<" ++ str (tipo t) ++ str ", " ++ lexema t ++ str ", "
  ++ json_dumps (atributos t) ++ str ">".

Definition tokens_a_texto (tokens : list Token) : text :=
  join [LF] (map linea_texto tokens).

(** [s.ljust(w)] *)
Definition ljust (s : text) (w : nat) : text :=
  s ++ repeat (ch " ") (w - length s).

(** The rows of the table: the header, then one row per token. *)
Definition tabla_filas (tokens : list Token) : list (list text) :=
  [str "Lexema"; str "Tipo"; str "Atributos"]
  :: map (fun t => [lexema t; str (tipo t); json_dumps (atributos t)])
         tokens.

(** [max(len(fila[i]) for fila in filas)] for each column [i] of the first
    row. *)
Definition anchos (filas : list (list text)) : list nat :=
  map (fun i => fold_right (fun fila w => Nat.max (length (nth i fila [])) w)
                           0 filas)
      (seq 0 (length (hd [] filas))).

Definition linea_tabla (ws : list nat) (fila : list text) : text :=
  join (str " | ") (map (fun vw => ljust (fst vw) (snd vw)) (combine fila ws)).

Definition regla_tabla (ws : list nat) : text :=
  join (str "-+-") (map (fun w => repeat (ch "-") w) ws).

(** The list [lineas] of [tokens_a_tabla], before it is joined. *)
Definition tabla_lineas (tokens : list Token) : list text :=
  let filas := tabla_filas tokens in
  let ws := anchos filas in
  flat_map (fun ifila =>
              linea_tabla ws (snd ifila)
              :: (if fst ifila =? 0 then [regla_tabla ws] else []))
           (combine (seq 0 (length filas)) filas).

Definition tokens_a_tabla (tokens : list Token) : text :=
  join [LF] (tabla_lineas tokens).

(** ** Further notions *)

(** No rule of the table matches at any offset from [a] up to [b]. *)
Definition sin_regla (texto : text) (a b : nat) : Prop :=
  forall q, a <= q -> q < b -> MASTER_RE (skipn q texto) = None.

(** The stretches [finditer] steps over hold no match. *)
Fixpoint huecos_sin_regla (texto : text) (p : nat) (ms : list Match) : Prop :=
  match ms with
  | [] => sin_regla texto p (length texto)
  | m :: ms' =>
      sin_regla texto p (m_start m) /\ huecos_sin_regla texto (m_end m) ms'
  end.

(** The characters at which some rule matches whatever follows: the
    newline, the blanks of [ESPACIO], digits, letters and the underscore,
    the one-character operators and the punctuation. *)
Definition empieza (c : char) : bool :=
  existsb (fun i => item_has i c)
    ([One LF; One (ch " "); One TAB; One FF; One VT; One CR;
      digit; upper; lower; One (ch "_")]
     ++ map (fun a => One (ch a))
          ["="; "+"; "-"; "*"; "/"; "%"; "<"; ">"; "!";
           "("; ")"; "{"; "}"; "["; "]"; "."; ","; ":"]%char).

(** Whether a text accepted by [r] can hold the character [c]. *)
Fixpoint puede (c : char) (r : regex) : bool :=
  match r with
  | Eps => false
  | Lit x => N.eqb x c
  | Any items => existsb (fun i => item_has i c) items
  | NoneOf items => negb (existsb (fun i => item_has i c) items)
  | Seq r1 r2 | Alt r1 r2 => puede c r1 || puede c r2
  | Star r1 => puede c r1
  end.

(** The rule behind each kind of token that comes from a match. *)
Definition patron_de (tipo : string) : option regex :=
  if String.eqb tipo "PALABRA_CLAVE" then Some IDENT
  else if String.eqb tipo "IDENT" then Some IDENT
  else if String.eqb tipo "NUM_ENTERO" then Some NUM_ENTERO
  else if String.eqb tipo "NUM_FLOTANTE" then Some NUM_FLOTANTE
  else if String.eqb tipo "CADENA" then Some CADENA
  else if String.eqb tipo "OPERADOR" then Some OPS_RE
  else if String.eqb tipo "SIMBOLO" then Some PUNCT_RE
  else if String.eqb tipo "NL" then Some NL
  else None.

(** A gap with a character that is not white space. *)
Definition hueco_malo (sg : segmento) : bool :=
  match sg with
  | Hueco chunk => malo chunk
  | Acierto _ _ => false
  end.

(** Whether the two characters that close a block comment occur. *)
Fixpoint contiene_cierre (s : text) : bool :=
  match s with
  | [] => false
  | c :: s' =>
      match s' with
      | d :: _ => (N.eqb c (ch "*") && N.eqb d (ch "/")) || contiene_cierre s'
      | [] => false
      end
  end.

Definition es_NL (t : Token) : bool := String.eqb (tipo t) "NL".

(** The value of an attribute that holds an integer. *)
Definition entero (t : Token) (k : string) : option Z :=
  match dict_get (atributos t) k with
  | Some (VInt z) => Some z
  | _ => None
  end.

(** The tokens one round of the loop appends for a match of group [g] with
    lexeme [lx], met at row [fila] and column [col]. *)
Definition emitidos (self : Explorador) (g : string) (lx : text)
    (fila col : Z) : list Token :=
  if String.eqb g "NL" then
    if con_nuevaslineas self
    then [mkToken lx "NL" [("fila", VInt fila); ("columna", VInt col)]]
    else []
  else if existsb (String.eqb g) ["ESPACIO"; "COMENT_LINEA"; "COMENT_BLOQ"]
  then []
  else [mkToken lx (fst (_clasificar g lx))
          (dict_update (snd (_clasificar g lx))
             [("fila", VInt fila); ("columna", VInt col)])].

(** The kinds of the tokens that come from a match other than a newline. *)
Definition TIPOS : list string :=
  ["PALABRA_CLAVE"; "IDENT"; "NUM_ENTERO"; "NUM_FLOTANTE"; "CADENA";
   "OPERADOR"; "SIMBOLO"].

(** [lexema in PALABRAS_CLAVE] *)
Definition es_clave (lx : text) : bool :=
  existsb (fun k => text_eqb (str k) lx) PALABRAS_CLAVE.

(** A token list without its [NL] tokens. *)
Definition sin_NL (toks : list Token) : list Token :=
  filter (fun t => negb (es_NL t)) toks.

(** Two states of the loop that differ by the [NL] tokens of the first. *)
Definition parejos (st_t st_f : estado) : Prop :=
  tokens st_f = sin_NL (tokens st_t) /\ linea st_f = linea st_t /\
  linea_inicio st_f = linea_inicio st_t /\ pos st_f = pos st_t.

(** The rows of a token list are those of a count that starts at [fila]
    and moves by the newlines of each [NL] token. *)
Fixpoint filas_ok (fila : Z) (toks : list Token) : Prop :=
  match toks with
  | [] => True
  | t :: toks' =>
      entero t "fila" = Some fila /\
      filas_ok (if es_NL t then fila + count (lexema t) LF else fila)%Z toks'
  end.

(** The three character classes of numbers and identifiers. *)
Definition es_digito (c : char) : bool :=
  existsb (fun i => item_has i c) [digit].
Definition es_inicial (c : char) : bool :=
  existsb (fun i => item_has i c) [upper; lower; One (ch "_")].
Definition es_palabra (c : char) : bool :=
  existsb (fun i => item_has i c) [upper; lower; digit; One (ch "_")].

(** The text does not go on with a character of the class. *)
Definition no_sigue (ok : char -> bool) (s : text) : Prop :=
  match s with
  | [] => True
  | c :: _ => ok c = false
  end.

(** ** Soundness of the matcher *)

Section Matcher.

Variable A : Type.

Lemma one_char_sound (ok : char -> bool) (s : text)
    (k : text -> option A) (a : A) :
  one_char ok s k = Some a ->
  exists c v, s = c :: v /\ ok c = true /\ k v = Some a.
Proof.
  destruct s as [|c v]; simpl; [discriminate|].
  destruct (ok c) eqn:E; [|discriminate].
  intros H. exists c, v. auto.
Qed.

Lemma star_loop_sound (r : regex)
    (IH : forall s (k : text -> option A) a, rmatch r s k = Some a ->
          exists u v, s = u ++ v /\ matches r u /\ k v = Some a) :
  forall n s (k : text -> option A) a,
    star_loop (rmatch r) n s k = Some a ->
    exists u v, s = u ++ v /\ matches (Star r) u /\ k v = Some a.
Proof.
  induction n as [|n IHn]; intros s k a H; simpl in H.
  - exists [], s. repeat split; [constructor | assumption].
  - destruct (rmatch r s _) as [a'|] eqn:E.
    + apply IH in E. destruct E as (u & v & -> & Hu & Hk).
      destruct (length v <? length (u ++ v)); [|discriminate].
      injection H as <-.
      apply IHn in Hk. destruct Hk as (u' & v' & -> & Hu' & Hk').
      exists (u ++ u'), v'. rewrite <- app_assoc.
      repeat split; [constructor; assumption | assumption].
    + exists [], s. repeat split; [constructor | assumption].
Qed.

(** Whatever the matcher returns comes from a split of the text into a
    part the pattern accepts and a rest the continuation accepts. *)
Lemma rmatch_sound (r : regex) :
  forall s (k : text -> option A) a,
    rmatch r s k = Some a ->
    exists u v, s = u ++ v /\ matches r u /\ k v = Some a.
Proof.
  induction r as [|c|items|items|r1 IH1 r2 IH2|r1 IH1 r2 IH2|r IH];
    intros s k a H; simpl in H.
  - exists [], s. repeat split; [constructor | assumption].
  - apply one_char_sound in H. destruct H as (x & v & -> & Hx & Hk).
    apply N.eqb_eq in Hx. subst x.
    exists [c], v. repeat split; [constructor | assumption].
  - apply one_char_sound in H. destruct H as (x & v & -> & Hx & Hk).
    exists [x], v. repeat split; [constructor; assumption | assumption].
  - apply one_char_sound in H. destruct H as (x & v & -> & Hx & Hk).
    apply negb_true_iff in Hx.
    exists [x], v. repeat split; [constructor; assumption | assumption].
  - apply IH1 in H. destruct H as (u & v & -> & Hu & H).
    apply IH2 in H. destruct H as (u' & v' & -> & Hu' & Hk).
    exists (u ++ u'), v'. rewrite <- app_assoc.
    repeat split; [constructor; assumption | assumption].
  - destruct (rmatch r1 s k) as [a'|] eqn:E.
    + injection H as <-. apply IH1 in E.
      destruct E as (u & v & -> & Hu & Hk).
      exists u, v. repeat split; [apply M_AltL; assumption | assumption].
    + apply IH2 in H. destruct H as (u & v & -> & Hu & Hk).
      exists u, v. repeat split; [apply M_AltR; assumption | assumption].
  - eapply star_loop_sound; eassumption.
Qed.

End Matcher.

Lemma matches_min_len (r : regex) (u : text) :
  matches r u -> min_len r <= length u.
Proof.
  induction 1; simpl; try rewrite length_app; lia.
Qed.

(** A successful [match]: the pattern accepts the first [n] characters. *)
Lemma match_len_sound (r : regex) (s : text) (n : nat) :
  match_len r s = Some n ->
  exists u v, s = u ++ v /\ matches r u /\ n = length u.
Proof.
  unfold match_len. intros H. apply rmatch_sound in H.
  destruct H as (u & v & -> & Hu & H). injection H as <-.
  exists u, v. repeat split; [assumption|]. rewrite length_app. lia.
Qed.

Lemma first_rule_sound (rules : list (string * regex)) (s : text)
    (g : string) (n : nat) :
  first_rule rules s = Some (g, n) ->
  exists r, In (g, r) rules /\ match_len r s = Some n.
Proof.
  induction rules as [|[nombre patron] rest IH]; simpl; [discriminate|].
  destruct (match_len patron s) as [n'|] eqn:E.
  - intros H. injection H as <- <-. exists patron. auto.
  - intros H. destruct (IH H) as (r & Hin & Hr). exists r. auto.
Qed.

(** Every rule of the table takes at least one character. *)
Lemma TOKEN_SPEC_min_len :
  Forall (fun rule => 1 <= min_len (snd rule)) TOKEN_SPEC.
Proof.
  unfold TOKEN_SPEC. repeat constructor.
Qed.

Lemma MASTER_RE_consumes (s : text) (g : string) (n : nat) :
  MASTER_RE s = Some (g, n) -> 0 < n /\ n <= length s.
Proof.
  intros H. apply first_rule_sound in H. destruct H as (r & Hin & H).
  apply match_len_sound in H. destruct H as (u & v & -> & Hu & ->).
  apply matches_min_len in Hu.
  pose proof TOKEN_SPEC_min_len as HF. rewrite Forall_forall in HF.
  apply HF in Hin. simpl in Hin. rewrite length_app. lia.
Qed.

(** ** What [finditer] yields *)

Arguments MASTER_RE : simpl never.

Lemma MASTER_RE_nil : MASTER_RE [] = None.
Proof. reflexivity. Qed.

Lemma search_eq (s : text) (p : nat) :
  search s p = match MASTER_RE s with
               | Some (g, n) => Some (mkMatch p (p + n) g)
               | None => match s with
                         | [] => None
                         | _ :: s' => search s' (S p)
                         end
               end.
Proof. destruct s; reflexivity. Qed.

Lemma search_sound (s : text) :
  forall p m, search s p = Some m ->
    exists i, m_start m = p + i /\ m_start m < m_end m /\
              m_end m <= p + length s /\
              MASTER_RE (skipn i s) = Some (lastgroup m, m_end m - m_start m).
Proof.
  induction s as [|x s IH]; intros p m H; rewrite search_eq in H.
  - rewrite MASTER_RE_nil in H. discriminate.
  - destruct (MASTER_RE (x :: s)) as [[g n]|] eqn:E.
    + injection H as <-. simpl. exists 0.
      apply MASTER_RE_consumes in E as E'. simpl in E'.
      replace (p + n - p) with n by lia.
      repeat split; try lia. exact E.
    + apply IH in H. destruct H as (i & H1 & H2 & H3 & H4).
      exists (S i). simpl. repeat split; try lia. exact H4.
Qed.

Lemma search_in_text (texto : text) (p : nat) (m : Match) :
  search (skipn p texto) p = Some m ->
  p <= m_start m /\ m_start m < m_end m /\ m_end m <= length texto /\
  MASTER_RE (skipn (m_start m) texto)
    = Some (lastgroup m, m_end m - m_start m).
Proof.
  intros H. apply search_sound in H.
  destruct H as (i & H1 & H2 & H3 & H4).
  rewrite length_skipn in H3. rewrite skipn_skipn in H4.
  replace (i + p) with (m_start m) in H4 by lia.
  repeat split; try lia. exact H4.
Qed.

Lemma finditer_from_encadenado (texto : text) :
  forall fuel p ms,
    finditer_from fuel texto p = Some ms -> encadenado texto p ms.
Proof.
  induction fuel as [|fuel IH]; intros p ms H; simpl in H; [discriminate|].
  destruct (search (skipn p texto) p) as [m|] eqn:E.
  - apply search_in_text in E. destruct E as (H1 & H2 & H3 & H4).
    replace (m_end m =? m_start m) with false in H
      by (symmetry; apply Nat.eqb_neq; lia).
    destruct (finditer_from fuel texto (m_end m)) as [ms'|] eqn:E';
      [|discriminate].
    injection H as <-. simpl. repeat split; auto.
  - injection H as <-. exact I.
Qed.

(** Enough fuel: one unit per character still ahead of the cursor, and one
    for the search that finds nothing. *)
Lemma finditer_from_fuel (texto : text) :
  forall fuel p, length texto - p < fuel ->
    exists ms, finditer_from fuel texto p = Some ms.
Proof.
  induction fuel as [|fuel IH]; intros p Hf; [lia|]. simpl.
  destruct (search (skipn p texto) p) as [m|] eqn:E.
  - apply search_in_text in E. destruct E as (H1 & H2 & H3 & H4).
    replace (m_end m =? m_start m) with false
      by (symmetry; apply Nat.eqb_neq; lia).
    destruct (IH (m_end m)) as (ms & ->); [lia|]. eauto.
  - eauto.
Qed.

(** More fuel changes nothing. *)
Lemma finditer_from_more_fuel (texto : text) :
  forall fuel1 fuel2 p ms,
    finditer_from fuel1 texto p = Some ms -> fuel1 <= fuel2 ->
    finditer_from fuel2 texto p = Some ms.
Proof.
  induction fuel1 as [|fuel1 IH]; intros fuel2 p ms H Hle; simpl in H;
    [discriminate|].
  destruct fuel2 as [|fuel2]; [lia|]. simpl.
  destruct (search (skipn p texto) p) as [m|]; [|assumption].
  destruct (finditer_from fuel1 texto _) as [ms'|] eqn:E; [|discriminate].
  rewrite (IH fuel2 _ ms' E); [assumption | lia].
Qed.

Lemma finditer_defined (texto : text) :
  exists ms, finditer texto = Some ms /\ encadenado texto 0 ms.
Proof.
  destruct (@finditer_from_fuel texto (S (length texto)) 0) as (ms & H);
    [lia|].
  exists ms. split; [exact H|].
  eapply finditer_from_encadenado; exact H.
Qed.

Lemma encadenado_avanza (texto : text) :
  forall ms p, encadenado texto p ms -> avanza p ms.
Proof.
  induction ms as [|m ms IH]; intros p H; simpl in *; [exact I|].
  destruct H as (H1 & H2 & H3 & H4 & H5). auto.
Qed.

Lemma encadenado_length (texto : text) :
  forall ms p, encadenado texto p ms -> p + length ms <= length texto \/ ms = [].
Proof.
  induction ms as [|m ms IH]; intros p H; simpl in *; [auto|].
  destruct H as (H1 & H2 & H3 & H4 & H5). left.
  destruct (IH _ H5) as [H | ->]; simpl; lia.
Qed.

(** ** Slices *)

Lemma slice_split (t : text) :
  forall a p b, a <= p -> p <= b -> slice t a b = slice t a p ++ slice t p b.
Proof.
  unfold slice. intros a p b Hap Hpb.
  replace (b - a) with ((p - a) + (b - p)) by lia.
  replace (skipn p t) with (skipn (p - a) (skipn a t))
    by (rewrite skipn_skipn; f_equal; lia).
  generalize (skipn a t) (p - a) (b - p). clear.
  intros l n. revert l. induction n as [|n IH]; intros l k; simpl.
  - reflexivity.
  - destruct l as [|x l]; simpl.
    + now rewrite firstn_nil.
    + now rewrite IH.
Qed.

Lemma slice_to_end (t : text) (a : nat) : slice t a (length t) = skipn a t.
Proof.
  unfold slice. apply firstn_all2. rewrite length_skipn. lia.
Qed.

Lemma slice_length (t : text) (a b : nat) :
  b <= length t -> length (slice t a b) = b - a.
Proof.
  intros H. unfold slice. rewrite length_firstn, length_skipn. lia.
Qed.

Lemma slice_nonempty (t : text) (a b : nat) :
  a < b -> b <= length t -> slice t a b <> [].
Proof.
  intros H1 H2 E. apply (f_equal (@length char)) in E.
  rewrite slice_length in E by assumption. simpl in E. lia.
Qed.


(** ** The spans rebuild the input *)

Lemma segmentos_concat (texto : text) :
  forall ms p, encadenado texto p ms -> p <= length texto ->
    concat (map span (segmentos texto p ms)) = skipn p texto.
Proof.
  induction ms as [|m ms IH]; intros p H Hp; simpl.
  - destruct (p <? length texto) eqn:E; simpl.
    + rewrite app_nil_r. apply slice_to_end.
    + apply Nat.ltb_ge in E. symmetry. apply skipn_all2. exact E.
  - destruct H as (H1 & H2 & H3 & H4 & H5).
    rewrite map_app, concat_app. simpl.
    rewrite (IH _ H5 H3). unfold group.
    rewrite <- (slice_to_end texto (m_end m)).
    rewrite <- (slice_to_end texto p).
    rewrite (@slice_split texto p (m_start m) (length texto)) by lia.
    rewrite (@slice_split texto (m_start m) (m_end m) (length texto)) by lia.
    f_equal.
    destruct (m_start m =? p) eqn:E; simpl.
    + apply Nat.eqb_eq in E. rewrite E. unfold slice.
      now rewrite Nat.sub_diag.
    + now rewrite app_nil_r.
Qed.

Lemma tramo_nonempty (texto s : text) : tramo texto s -> s <> [].
Proof.
  intros (a & b & H1 & H2 & ->). now apply slice_nonempty.
Qed.

Lemma segmentos_tramos (texto : text) :
  forall ms p, encadenado texto p ms ->
    Forall (fun sg => tramo texto (span sg)) (segmentos texto p ms).
Proof.
  induction ms as [|m ms IH]; intros p H; simpl.
  - destruct (p <? length texto) eqn:E; constructor; [|constructor].
    apply Nat.ltb_lt in E. exists p, (length texto). simpl. auto.
  - destruct H as (H1 & H2 & H3 & H4 & H5).
    apply Forall_app. split.
    + destruct (m_start m =? p) eqn:E; simpl; constructor; [|constructor].
      apply Nat.eqb_neq in E. exists p, (m_start m). simpl.
      repeat split; lia.
    + constructor; [|apply IH; exact H5].
      exists (m_start m), (m_end m). simpl. auto.
Qed.

(** ** Subsequences *)

Lemma subseq_nil_l (A : Type) (l : list A) : subseq [] l.
Proof. induction l; constructor; assumption. Qed.

Lemma subseq_refl (A : Type) (l : list A) : subseq l l.
Proof. induction l; constructor; assumption. Qed.

Lemma subseq_app_l (A : Type) (pre l1 l2 : list A) :
  subseq l1 l2 -> subseq l1 (pre ++ l2).
Proof. intros H. induction pre; simpl; [|constructor]; assumption. Qed.

Lemma subseq_In (A : Type) (l1 l2 : list A) :
  subseq l1 l2 -> forall x, In x l1 -> In x l2.
Proof.
  induction 1; intros y Hy; simpl in *; auto.
  destruct Hy as [->|Hy]; auto.
Qed.

(** ** The gap test *)

Lemma malo_In (chunk : text) (c : char) :
  In c chunk -> is_space c = false -> malo chunk = true.
Proof.
  intros Hin Hc. unfold malo. apply existsb_exists.
  exists c. split; [assumption|]. now rewrite Hc.
Qed.

Lemma re_search_not_space (s : text) :
  re_search (NoneOf [Space]) s = malo s.
Proof.
  induction s as [|c s IH]; [reflexivity|].
  change (re_search (NoneOf [Space]) (c :: s))
    with (match match_len (NoneOf [Space]) (c :: s) with
          | Some _ => true
          | None => re_search (NoneOf [Space]) s
          end).
  unfold match_len. simpl rmatch. unfold one_char. simpl existsb.
  rewrite orb_false_r. change (malo (c :: s)) with (negb (is_space c) || malo s).
  destruct (is_space c); cbn [negb orb]; [exact IH | reflexivity].
Qed.

Lemma malo_replace_LF (chunk : text) : malo (replace chunk LF []) = malo chunk.
Proof.
  unfold malo, replace. induction chunk as [|c chunk IH]; [reflexivity|].
  simpl. destruct (N.eqb c LF) eqn:E.
  - apply N.eqb_eq in E. subst c. simpl. exact IH.
  - simpl. now rewrite IH.
Qed.

Lemma _consume_desconocido_spec (chunk : text) (l c0 : Z) (texto : text)
    (toks : list Token) :
  _consume_desconocido chunk l c0 texto toks = negb (malo chunk).
Proof.
  unfold _consume_desconocido. destruct chunk as [|c chunk]; [reflexivity|].
  rewrite re_search_not_space, malo_replace_LF.
  now destruct (malo (c :: chunk)).
Qed.

(** The three ways out of the gap test. *)
Lemma hueco_cases (self : Explorador) (texto : text) (st : estado)
    (inicio : nat) :
  let chunk := slice texto (pos st) inicio in
  (hueco self texto st inicio = Return tt /\
   (inicio = pos st \/ malo chunk = false))
  \/ (inicio <> pos st /\ malo chunk = true /\ tolerante self = true /\
      hueco self texto st inicio = Raise TypeError)
  \/ (inicio <> pos st /\ malo chunk = true /\ tolerante self = false /\
      hueco self texto st inicio
      = Raise (ExploradorError
                 (mensaje false (linea st)
                    (Z.of_nat (pos st) - linea_inicio st + 1)
                    (replace (slice chunk 0 20) LF (str "\n"))))).
Proof.
  intros chunk. unfold hueco. fold chunk.
  rewrite _consume_desconocido_spec, negb_involutive.
  destruct (inicio =? pos st) eqn:E; simpl.
  - apply Nat.eqb_eq in E. auto.
  - apply Nat.eqb_neq in E. destruct (malo chunk); [|auto].
    destruct (tolerante self); auto 10.
Qed.

(** A round whose gap test passes ends at the end of the match, with at most
    one token more, the lexeme of the match. *)
Lemma cuerpo_cases (self : Explorador) (texto : text) (st : estado)
    (m : Match) :
  match hueco self texto st (m_start m) with
  | Return _ =>
      exists st1, cuerpo self texto st m = Return st1 /\
                  pos st1 = m_end m /\
                  (tokens st1 = tokens st \/
                   exists t, tokens st1 = tokens st ++ [t] /\
                             lexema t = group m texto)
  | Raise e => cuerpo self texto st m = Raise e
  | NoFuel => False
  end.
Proof.
  unfold cuerpo.
  destruct (hueco_cases self texto st (m_start m))
    as [[-> _] | [(_ & _ & _ & ->) | (_ & _ & _ & ->)]];
    [|reflexivity|reflexivity].
  unfold bind.
  destruct (String.eqb (lastgroup m) "NL").
  - eexists. split; [reflexivity|]. simpl. split; [reflexivity|].
    destruct (con_nuevaslineas self); eauto.
  - destruct (existsb _ _).
    + eexists. split; [reflexivity|]. simpl. auto.
    + destruct (_clasificar _ _) as [t a].
      eexists. split; [reflexivity|]. simpl. eauto.
Qed.

Section Bucle.

Variable self : Explorador.
Variable texto : text.

Lemma desde_cons (m : Match) (ms : list Match) (st : estado) :
  desde self texto (m :: ms) st = st1 <- cuerpo self texto st m ;; desde self texto ms st1.
Proof.
  unfold desde. simpl. now destruct (cuerpo self texto st m).
Qed.

Lemma resto_cases (st : estado) :
  resto self texto st = Return (tokens st)
  \/ (pos st < length texto /\
      malo (slice texto (pos st) (length texto)) = true /\
      ((tolerante self = true /\
        exists t, resto self texto st = Return (tokens st ++ [t]) /\
                  lexema t = slice texto (pos st) (length texto))
       \/ (tolerante self = false /\
           exists msg, resto self texto st = Raise (ExploradorError msg)))).
Proof.
  unfold resto. rewrite _consume_desconocido_spec, negb_involutive.
  destruct (pos st <? length texto) eqn:E; [|auto].
  apply Nat.ltb_lt in E.
  destruct (malo _) eqn:Em; [|auto]. right.
  destruct (tolerante self); eauto 10.
Qed.

(** The model never runs out of fuel inside the loop. *)
Lemma desde_fuel (ms : list Match) :
  forall st, desde self texto ms st <> NoFuel.
Proof.
  induction ms as [|m ms IH]; intros st.
  - unfold desde. simpl.
    destruct (resto_cases st)
      as [-> | (_ & _ & [(_ & t & -> & _) | (_ & msg & ->)])];
      discriminate.
  - rewrite desde_cons. pose proof (cuerpo_cases self texto st m) as H.
    destruct (hueco self texto st (m_start m)); [| |contradiction].
    + destruct H as (st1 & -> & _). simpl. apply IH.
    + rewrite H. discriminate.
Qed.

(** The lexemes of the tokens returned are spans, in their order. *)
Lemma desde_subseq (ms : list Match) :
  forall st toks, desde self texto ms st = Return toks ->
    exists nuevos, toks = tokens st ++ nuevos /\
      subseq (map lexema nuevos)
             (map span (segmentos texto (pos st) ms)).
Proof.
  induction ms as [|m ms IH]; intros st toks H.
  - unfold desde in H. simpl in H. simpl segmentos.
    destruct (resto_cases st)
      as [E | (Hp & _ & [(_ & t & E & Ht) | (_ & msg & E)])];
      rewrite E in H; [| |discriminate]; injection H as <-.
    + exists []. rewrite app_nil_r. split; [reflexivity|].
      apply subseq_nil_l.
    + exists [t]. split; [reflexivity|].
      apply Nat.ltb_lt in Hp. rewrite Hp. simpl. rewrite Ht.
      apply subseq_refl.
  - rewrite desde_cons in H.
    pose proof (cuerpo_cases self texto st m) as Hc.
    destruct (hueco self texto st (m_start m)); [| |contradiction].
    + destruct Hc as (st1 & E & Hpos & Htok). rewrite E in H. simpl in H.
      apply IH in H. destruct H as (nuevos & -> & Hsub).
      rewrite Hpos in Hsub. simpl segmentos. rewrite map_app.
      destruct Htok as [-> | (t & -> & Ht)].
      * exists nuevos. split; [reflexivity|].
        apply subseq_app_l. simpl. now constructor.
      * exists (t :: nuevos). rewrite <- app_assoc.
        split; [reflexivity|].
        apply subseq_app_l. simpl. rewrite Ht. now constructor.
    + rewrite Hc in H. discriminate.
Qed.

(** In strict mode one gap with a character that is not white space is
    enough for the call to raise. *)
Lemma desde_estricto_malo (Hs : tolerante self = false)
    (ms : list Match) :
  forall st chunk,
    In (Hueco chunk) (segmentos texto (pos st) ms) ->
    malo chunk = true ->
    exists msg, desde self texto ms st = Raise (ExploradorError msg).
Proof.
  induction ms as [|m ms IH]; intros st chunk Hin Hm.
  - unfold desde. simpl in *.
    destruct (pos st <? length texto) eqn:Ep; [|contradiction].
    destruct Hin as [E|[]]. injection E as <-.
    destruct (resto_cases st)
      as [E | (_ & _ & [(Ht & _) | (_ & msg & E)])].
    + exfalso. revert E. unfold resto.
      rewrite Ep, _consume_desconocido_spec, Hm, Hs. discriminate.
    + congruence.
    + eauto.
  - rewrite desde_cons. simpl in Hin.
    pose proof (cuerpo_cases self texto st m) as Hc.
    destruct (hueco_cases self texto st (m_start m))
      as [[E Hok] | [(_ & _ & Ht & _) | (_ & _ & _ & E)]].
    + rewrite E in Hc. destruct Hc as (st1 & -> & Hpos & _). simpl.
      apply (IH st1 chunk); [|assumption]. rewrite Hpos.
      apply in_app_or in Hin. destruct Hin as [Hin|[Hin|Hin]];
        [|discriminate|assumption].
      exfalso. destruct (m_start m =? pos st) eqn:En; simpl in Hin;
        [contradiction|].
      destruct Hin as [Hin|[]]. injection Hin as <-.
      apply Nat.eqb_neq in En. destruct Hok; congruence.
    + congruence.
    + rewrite E in Hc. rewrite Hc. simpl. eauto.
Qed.

(** In tolerant mode one gap before a match with a character that is not
    white space is enough for the call to raise [TypeError]. *)
Lemma desde_tolerante_malo (Ht : tolerante self = true)
    (ms : list Match) :
  forall st chunk,
    In chunk (huecos_internos texto (pos st) ms) ->
    malo chunk = true ->
    desde self texto ms st = Raise TypeError.
Proof.
  induction ms as [|m ms IH]; intros st chunk Hin Hm; [contradiction|].
  rewrite desde_cons. simpl in Hin.
  pose proof (cuerpo_cases self texto st m) as Hc.
  destruct (hueco_cases self texto st (m_start m))
    as [[E Hok] | [(_ & _ & _ & E) | (_ & _ & Hs & _)]].
  - rewrite E in Hc. destruct Hc as (st1 & -> & Hpos & _). simpl.
    apply (IH st1 chunk); [|assumption]. rewrite Hpos.
    apply in_app_or in Hin. destruct Hin as [Hin|Hin]; [|assumption].
    exfalso. destruct (m_start m =? pos st) eqn:En; simpl in Hin;
      [contradiction|].
    destruct Hin as [<-|[]].
    apply Nat.eqb_neq in En. destruct Hok; congruence.
  - rewrite E in Hc. rewrite Hc. reflexivity.
  - congruence.
Qed.


End Bucle.

(** ** The string rule *)

Lemma interior_items (c : char) :
  existsb (fun i => item_has i c) [One QUOTE; One LF] = false <-> interior c.
Proof.
  unfold interior. simpl. rewrite orb_false_r, orb_false_iff.
  now rewrite !N.eqb_neq.
Qed.

Lemma matches_star_none_of (items : list item) (r : regex) (w : text) :
  matches r w -> r = Star (NoneOf items) ->
  Forall (fun c => existsb (fun i => item_has i c) items = false) w.
Proof.
  induction 1 as [| | | | | | | |r u v Hu _ Hv IHv]; intros E;
    try discriminate; [constructor|].
  injection E as ->. inversion Hu; subst.
  simpl. constructor; [assumption | now apply IHv].
Qed.

(** What [CADENA] accepts: a quote, a body, a quote. *)
Lemma matches_CADENA (u : text) :
  matches CADENA u ->
  exists w, u = QUOTE :: w ++ [QUOTE] /\ Forall interior w.
Proof.
  unfold CADENA. intros H.
  inversion H as [| | | |r1 r2 u1 u2 H1 H2| | | |]; subst.
  inversion H1; subst.
  inversion H2 as [| | | |r1 r2 w u3 Hw H3| | | |]; subst.
  inversion H3; subst.
  exists w. split; [reflexivity|].
  pose proof (@matches_star_none_of [One QUOTE; One LF] _ _ Hw eq_refl) as HF.
  clear -HF. induction HF as [|c w Hc _ IH]; constructor; [|assumption].
  now apply interior_items.
Qed.



Transparent MASTER_RE.

(** At a quote only the string rule can match. *)
Lemma MASTER_RE_quote (s : text) :
  MASTER_RE (QUOTE :: s)
  = match match_len CADENA (QUOTE :: s) with
    | Some n => Some ("CADENA", n)
    | None => None
    end.
Proof.
  unfold MASTER_RE, TOKEN_SPEC, first_rule.
  change (match_len COMENT_BLOQ (QUOTE :: s)) with (@None nat).
  change (match_len COMENT_LINEA (QUOTE :: s)) with (@None nat).
  change (match_len ESPACIO (QUOTE :: s)) with (@None nat).
  change (match_len NL (QUOTE :: s)) with (@None nat).
  cbv iota beta.
  destruct (match_len CADENA (QUOTE :: s)); reflexivity.
Qed.

(** The name of a match tells the rule that made it. *)
Lemma MASTER_RE_CADENA (s : text) (n : nat) :
  MASTER_RE s = Some ("CADENA", n) -> match_len CADENA s = Some n.
Proof.
  intros H. apply first_rule_sound in H. destruct H as (r & Hin & H).
  unfold TOKEN_SPEC in Hin. simpl in Hin.
  repeat (destruct Hin as [E|Hin];
          [try discriminate E; injection E as <-; assumption|]).
  contradiction.
Qed.

Opaque MASTER_RE.

(** The greedy loop over a character class takes the whole run of
    characters of the class and hands over what follows. *)
Lemma star_none_of_run (A : Type) (items : list item) (k : text -> option A)
    (a : A) (s' : text) :
  k s' = Some a ->
  (forall c v, s' = c :: v ->
               existsb (fun i => item_has i c) items = true) ->
  forall run n,
    Forall (fun c => existsb (fun i => item_has i c) items = false) run ->
    length (run ++ s') <= n ->
    star_loop (rmatch (NoneOf items)) n (run ++ s') k = Some a.
Proof.
  intros Hk Hs'. induction run as [|c run IH]; intros n Hrun Hn.
  - simpl app. destruct n as [|n]; simpl; [assumption|].
    destruct s' as [|c v]; simpl; [assumption|].
    now rewrite (Hs' c v eq_refl).
  - destruct n as [|n]; [simpl in Hn; lia|].
    inversion Hrun as [|? ? Hc Hrun']; subst.
    simpl. rewrite Hc. simpl.
    rewrite IH; [|assumption|simpl in Hn; lia].
    replace (length (run ++ s') <? S (length (run ++ s'))) with true
      by (symmetry; apply Nat.ltb_lt; lia).
    reflexivity.
Qed.

Lemma CADENA_cerrada (body : text) :
  Forall interior body ->
  match_len CADENA (QUOTE :: body ++ [QUOTE])
  = Some (length (QUOTE :: body ++ [QUOTE])).
Proof.
  intros Hb. unfold match_len, CADENA.
  change (rmatch (Seq (Lit QUOTE) ?r) (QUOTE :: ?s) ?k) with (rmatch r s k).
  change (rmatch (Seq (Star ?r) ?r2) ?s ?k)
    with (star_loop (rmatch r) (length s) s (fun s' => rmatch r2 s' k)).
  apply star_none_of_run.
  - reflexivity.
  - intros c v E. injection E as <- <-. reflexivity.
  - clear -Hb. induction Hb; constructor; [|assumption].
    now apply interior_items.
  - lia.
Qed.

(** ** String tokens *)

Lemma _clasificar_CADENA (g : string) (lx : text) (a : dict) :
  _clasificar g lx = ("CADENA", a) ->
  g = "CADENA" /\ a = [("valor", VStr (slice lx 1 (length lx - 1)))].
Proof.
  unfold _clasificar.
  destruct (String.eqb g "IDENT");
    [destruct (existsb _ _); discriminate|].
  destruct (String.eqb g "NUM_ENTERO"); [discriminate|].
  destruct (String.eqb g "NUM_FLOTANTE"); [discriminate|].
  destruct (String.eqb g "CADENA") eqn:E.
  - apply String.eqb_eq in E. intros H. injection H as <-. auto.
  - destruct (String.eqb g "OPERADOR"); [discriminate|].
    destruct (String.eqb g "SIMBOLO"); [discriminate|].
    intros H. injection H as -> _. discriminate.
Qed.

Lemma sin_comillas (w : text) :
  slice (QUOTE :: w ++ [QUOTE]) 1 (length (QUOTE :: w ++ [QUOTE]) - 1) = w.
Proof.
  unfold slice. simpl. rewrite length_app. simpl.
  replace (length w + 1 - 0 - 1) with (length w + 0) by lia.
  rewrite firstn_app_2. simpl. apply app_nil_r.
Qed.

(** The lexeme of a match of the string rule. *)
Lemma group_CADENA (texto : text) (m : Match) :
  MASTER_RE (skipn (m_start m) texto)
    = Some ("CADENA", m_end m - m_start m) ->
  exists body, Forall interior body /\
               group m texto = QUOTE :: body ++ [QUOTE].
Proof.
  intros H. apply MASTER_RE_CADENA in H. apply match_len_sound in H.
  destruct H as (u & v & E & Hu & Hn).
  apply matches_CADENA in Hu. destruct Hu as (w & -> & Hw).
  exists w. split; [assumption|].
  unfold group, slice. rewrite E, Hn.
  replace (length (QUOTE :: w ++ [QUOTE]))
    with (length (QUOTE :: w ++ [QUOTE]) + 0) by lia.
  rewrite firstn_app_2. simpl. now rewrite app_nil_r.
Qed.

Section Cadenas.

Variable self : Explorador.
Variable texto : text.

Lemma cuerpo_cadena_ok (st st1 : estado) (m : Match) :
  MASTER_RE (skipn (m_start m) texto)
    = Some (lastgroup m, m_end m - m_start m) ->
  cuerpo self texto st m = Return st1 ->
  Forall cadena_ok (tokens st) -> Forall cadena_ok (tokens st1).
Proof.
  intros Hm H Hst. unfold cuerpo in H.
  destruct (hueco self texto st (m_start m)); try discriminate.
  unfold bind in H.
  destruct (String.eqb (lastgroup m) "NL").
  - injection H as <-. simpl.
    destruct (con_nuevaslineas self); [|assumption].
    apply Forall_app. split; [assumption|].
    constructor; [|constructor]. intros E. discriminate.
  - destruct (existsb _ _).
    + injection H as <-. assumption.
    + destruct (_clasificar _ _) as [t1 a1] eqn:Ec.
      injection H as <-. simpl.
      apply Forall_app. split; [assumption|].
      constructor; [|constructor]. intros E. simpl in E. subst t1.
      apply _clasificar_CADENA in Ec. destruct Ec as [Eg ->].
      rewrite Eg in Hm. apply group_CADENA in Hm.
      destruct Hm as (body & Hb & El).
      exists body. do 2 eexists. simpl.
      rewrite El, sin_comillas. auto.
Qed.

Lemma resto_cadena_ok (st : estado) (toks : list Token) :
  resto self texto st = Return toks ->
  Forall cadena_ok (tokens st) -> Forall cadena_ok toks.
Proof.
  unfold resto. intros H Hst.
  destruct (pos st <? length texto); [|now injection H as <-].
  destruct (negb _); [|now injection H as <-].
  destruct (tolerante self); [|discriminate].
  injection H as <-. apply Forall_app. split; [assumption|].
  constructor; [|constructor]. intros E. discriminate.
Qed.

Lemma desde_cadena_ok (ms : list Match) :
  forall p st toks, encadenado texto p ms ->
    desde self texto ms st = Return toks ->
    Forall cadena_ok (tokens st) -> Forall cadena_ok toks.
Proof.
  induction ms as [|m ms IH]; intros p st toks Hch H Hst.
  - unfold desde in H. simpl in H. eapply resto_cadena_ok; eassumption.
  - rewrite desde_cons in H. destruct Hch as (_ & _ & _ & Hm & Hch).
    destruct (cuerpo self texto st m) as [st1| |] eqn:E;
      try discriminate.
    simpl in H. apply (IH _ st1 toks Hch H).
    eapply cuerpo_cadena_ok; eassumption.
Qed.

End Cadenas.

(** A closed string literal alone on the input. *)
Lemma finditer_cadena (body : text) :
  Forall interior body ->
  finditer (QUOTE :: body ++ [QUOTE])
  = Some [mkMatch 0 (length (QUOTE :: body ++ [QUOTE])) "CADENA"].
Proof.
  intros Hb. unfold finditer.
  set (texto := QUOTE :: body ++ [QUOTE]).
  change (length texto) with (S (length (body ++ [QUOTE]))).
  cbn [finditer_from]. change (skipn 0 texto) with texto.
  rewrite search_eq. unfold texto at 1.
  rewrite MASTER_RE_quote, (CADENA_cerrada Hb). fold texto.
  cbn [m_end m_start Nat.add].
  change (length texto =? 0) with false. cbv iota.
  rewrite skipn_all. rewrite search_eq, MASTER_RE_nil. reflexivity.
Qed.



Lemma tokenizar_desde (self : Explorador) (texto : text) (ms : list Match) :
  finditer texto = Some ms ->
  tokenizar self texto = desde self texto ms (mkEstado [] 1%Z 0%Z 0).
Proof. unfold tokenizar. now intros ->. Qed.

(** ** The properties of the specification *)

(** C1 (the code departs from the specification).  In tolerant mode the input
    [x @ y] does not give IDENT, ERROR, IDENT: the gap [@] lies between two
    matches, and the branch that handles it builds its token with five
    arguments, so the call raises [TypeError]. *)
Theorem C1_hueco_tolerante_TypeError (nl : bool) :
  tokenizar (tolerante_ nl) (str "x @ y") = Raise TypeError.
Proof. destruct nl; vm_compute; reflexivity. Qed.

(** The branch after the loop builds the same token well: a gap at the end
    of the input becomes one ERROR token with row, column and reason. *)
Lemma hueco_final_tolerante (nl : bool) :
  tokenizar (tolerante_ nl) (str "x @")
  = Return [ mkToken (str "x") "IDENT"
               [("fila", VInt 1%Z); ("columna", VInt 1%Z)];
             mkToken (str "@") "ERROR"
               [("fila", VInt 1%Z); ("columna", VInt 3%Z);
                ("motivo", VStr (str "desconocido"))] ].
Proof. destruct nl; vm_compute; reflexivity. Qed.

(** C2.  The matches of [finditer] and the gaps between them, in source
    order, concatenate to the input; each such span is a non-empty stretch
    [texto[a:b]] of it; and the lexemes of the tokens a call returns are
    some of these spans, in the same order. *)
Theorem C2_reconstruccion (self : Explorador) (texto : text) :
  exists ms,
    finditer texto = Some ms /\
    concat (map span (segmentos texto 0 ms)) = texto /\
    Forall (fun sg => span sg <> [] /\ tramo texto (span sg))
           (segmentos texto 0 ms) /\
    forall toks, tokenizar self texto = Return toks ->
      subseq (map lexema toks) (map span (segmentos texto 0 ms)) /\
      Forall (fun t => lexema t <> [] /\ tramo texto (lexema t)) toks.
Proof.
  destruct (finditer_defined texto) as (ms & Hfi & Hch).
  exists ms. split; [assumption|].
  assert (HT : Forall (fun sg => span sg <> [] /\ tramo texto (span sg))
                      (segmentos texto 0 ms)).
  { eapply Forall_impl; [|apply segmentos_tramos; exact Hch].
    intros sg H. split; [eapply tramo_nonempty|]; exact H. }
  split; [|split; [exact HT|]].
  - rewrite (@segmentos_concat texto ms 0 Hch); [reflexivity | lia].
  - intros toks H. rewrite (@tokenizar_desde self texto ms Hfi) in H.
    apply desde_subseq in H. destruct H as (nuevos & -> & Hsub).
    simpl in *. split; [assumption|].
    apply Forall_forall. intros t Ht.
    assert (Hin : In (lexema t) (map span (segmentos texto 0 ms)))
      by (eapply subseq_In; [exact Hsub | now apply in_map]).
    apply in_map_iff in Hin. destruct Hin as (sg & <- & Hsg).
    rewrite Forall_forall in HT. now apply HT.
Qed.

Lemma C2_reconstruccion_witness :
  let texto := str "x y @" in
  let toks := [ mkToken (str "x") "IDENT"
                  [("fila", VInt 1%Z); ("columna", VInt 1%Z)];
                mkToken (str "y") "IDENT"
                  [("fila", VInt 1%Z); ("columna", VInt 3%Z)];
                mkToken (str "@") "ERROR"
                  [("fila", VInt 1%Z); ("columna", VInt 5%Z);
                   ("motivo", VStr (str "desconocido"))] ] in
  tokenizar (tolerante_ false) texto = Return toks /\
  exists ms,
    finditer texto = Some ms /\
    concat (map span (segmentos texto 0 ms)) = texto /\
    subseq (map lexema toks) (map span (segmentos texto 0 ms)) /\
    Forall (fun t => lexema t <> [] /\ tramo texto (lexema t)) toks.
Proof.
  intros texto toks.
  assert (E : tokenizar (tolerante_ false) texto = Return toks)
    by (vm_compute; reflexivity).
  split; [exact E|].
  destruct (C2_reconstruccion (tolerante_ false) texto)
    as (ms & Hfi & Hcat & _ & H).
  exists ms. destruct (H toks E) as [Hs Hf]. auto.
Defined.

(** C3 (the code departs from the specification).  The row counter moves in the
    [NL] branch alone, and a comment takes newlines with it: after a line
    comment, or a block comment over two lines, [x] stands on line 2 of the
    input (one newline before its offset) and is given row 1. *)
Theorem C3_fila_tras_comentario (self : Explorador) :
  let linea_c := str "// c" ++ [LF] ++ str "x" in
  let bloque_c := str "/*" ++ [LF] ++ str "*/x" in
  tokenizar self linea_c
  = Return [mkToken (str "x") "IDENT"
              [("fila", VInt 1%Z); ("columna", VInt 6%Z)]]
  /\ (1 + count (slice linea_c 0 5) LF = 2)%Z
  /\ tokenizar self bloque_c
     = Return [mkToken (str "x") "IDENT"
                 [("fila", VInt 1%Z); ("columna", VInt 6%Z)]]
  /\ (1 + count (slice bloque_c 0 5) LF = 2)%Z.
Proof. destruct self as [[] []]; vm_compute; auto. Qed.

(** Where only [NL] matches hold the newlines, the rows are right. *)
Lemma fila_tras_NL (nl : bool) :
  resumen (tokenizar (estricto nl) (str "a" ++ [LF] ++ str "b"))
  = Return (if nl then [("IDENT", str "a"); ("NL", [LF]); ("IDENT", str "b")]
            else [("IDENT", str "a"); ("IDENT", str "b")])
  /\ tokenizar (estricto false) (str "a" ++ [LF] ++ str "b")
     = Return [mkToken (str "a") "IDENT"
                 [("fila", VInt 1%Z); ("columna", VInt 1%Z)];
               mkToken (str "b") "IDENT"
                 [("fila", VInt 2%Z); ("columna", VInt 1%Z)]].
Proof. destruct nl; vm_compute; auto. Qed.

(** C4.  In strict mode [@] raises [ExploradorError] with the message for
    row 1, column 1, and no token list comes back; and whatever the input,
    one gap with a character that is not white space makes the call raise
    [ExploradorError]. *)
Theorem C4_estricto_falla :
  (forall nl,
     tokenizar (estricto nl) (str "@")
     = Raise (ExploradorError
                (str "Car" ++ [a_acute]
                 ++ str "cter no reconocido al final en fila 1, columna 1: '@'")))
  /\ forall self texto ms chunk c,
       tolerante self = false ->
       finditer texto = Some ms ->
       In (Hueco chunk) (segmentos texto 0 ms) ->
       In c chunk -> is_space c = false ->
       exists msg, tokenizar self texto = Raise (ExploradorError msg).
Proof.
  split.
  - intros nl. destruct nl; vm_compute; reflexivity.
  - intros self texto ms chunk c Hs Hfi Hin Hc Hsp.
    rewrite (@tokenizar_desde self texto ms Hfi).
    apply (@desde_estricto_malo self texto Hs ms (mkEstado [] 1%Z 0%Z 0)
             chunk Hin).
    eapply malo_In; eassumption.
Qed.

Lemma C4_estricto_falla_witness :
  exists msg, tokenizar (estricto false) (str "x @ y")
              = Raise (ExploradorError msg).
Proof.
  apply (proj2 C4_estricto_falla (estricto false) (str "x @ y")
           [mkMatch 0 1 "IDENT"; mkMatch 1 2 "ESPACIO";
            mkMatch 3 4 "ESPACIO"; mkMatch 4 5 "IDENT"]
           (str "@") (ch "@")).
  - reflexivity.
  - vm_compute. reflexivity.
  - vm_compute. auto.
  - vm_compute. auto.
  - vm_compute. reflexivity.
Defined.

(** C5 (the code departs from the specification).  On [/***/] the block-comment
    rule does not match at the opener although [*/] follows it, and the
    five characters come out as five operators; on the input of the second
    part the rule runs past the first [*/], which ends at offset 6, to the
    second one at offset 11. *)
Theorem C5_comentario_bloque :
  match_len COMENT_BLOQ (str "/***/") = None
  /\ resumen (tokenizar (estricto false) (str "/***/"))
     = Return [("OPERADOR", str "/"); ("OPERADOR", str "*");
               ("OPERADOR", str "*"); ("OPERADOR", str "*");
               ("OPERADOR", str "/")]
  /\ slice (str "/* **/ x */") 4 6 = str "*/"
  /\ match_len COMENT_BLOQ (str "/* **/ x */") = Some 11
  /\ tokenizar (estricto false) (str "/* **/ x */") = Return [].
Proof. vm_compute. auto 6. Qed.

(** C6.  Every match of the table takes at least one character; with one
    unit of fuel per character and one more, [finditer] yields its list of
    matches, along which the cursor moves strictly forward, in at most as
    many rounds as the input has characters; and the call ends, by return
    or by raise. *)
Theorem C6_termina (self : Explorador) (texto : text) :
  (forall s g n, MASTER_RE s = Some (g, n) -> 0 < n)
  /\ (exists ms,
        (forall fuel, length texto < fuel ->
                      finditer_from fuel texto 0 = Some ms)
        /\ avanza 0 ms /\ length ms <= length texto)
  /\ tokenizar self texto <> NoFuel.
Proof.
  split; [|split].
  - intros s g n H. now apply MASTER_RE_consumes in H.
  - destruct (finditer_defined texto) as (ms & Hfi & Hch).
    exists ms. split; [|split].
    + intros fuel Hf. eapply finditer_from_more_fuel; [exact Hfi | lia].
    + eapply encadenado_avanza; exact Hch.
    + destruct (encadenado_length _ _ _ Hch) as [H | ->]; simpl; lia.
  - destruct (finditer_defined texto) as (ms & Hfi & _).
    rewrite (@tokenizar_desde self texto ms Hfi). apply desde_fuel.
Qed.

Lemma C6_termina_witness :
  0 < 2 /\
  finditer_from 4 (str "&&=") 0
  = Some [mkMatch 0 2 "OPERADOR"; mkMatch 2 3 "OPERADOR"].
Proof.
  destruct (C6_termina (estricto false) (str "&&=")) as (H1 & H2 & _).
  split.
  - apply (H1 (str "&&=") "OPERADOR" 2). vm_compute. reflexivity.
  - destruct H2 as (ms & H & _). rewrite (H 4) by (vm_compute; lia).
    rewrite <- (H 5) by (vm_compute; lia). vm_compute. reflexivity.
Defined.

(** C7.  In strict mode [&&=] gives two tokens, the operator [&&] and the
    operator [=]: at offset 0 the table takes the two characters. *)
Theorem C7_operador_doble (nl : bool) :
  MASTER_RE (str "&&=") = Some ("OPERADOR", 2)
  /\ tokenizar (estricto nl) (str "&&=")
     = Return [mkToken (str "&&") "OPERADOR"
                 [("fila", VInt 1%Z); ("columna", VInt 1%Z)];
               mkToken (str "=") "OPERADOR"
                 [("fila", VInt 1%Z); ("columna", VInt 3%Z)]].
Proof. destruct nl; vm_compute; auto. Qed.




(** C9.  The classifier gives a string match the kind [CADENA] and, as
    [valor], the lexeme between its first and its last character; every
    token of kind [CADENA] a call returns has a quoted body as lexeme and
    that body, untouched, as [valor]; a quoted body alone on the input gives
    exactly that one token; so does [hola] between quotes, and a body with a
    backslash keeps it. *)
Theorem C9_cadena (self : Explorador) :
  (forall lx,
     _clasificar "CADENA" lx
     = ("CADENA", [("valor", VStr (slice lx 1 (length lx - 1)))]))
  /\ (forall texto toks,
        tokenizar self texto = Return toks -> Forall cadena_ok toks)
  /\ (forall body,
        Forall interior body ->
        tokenizar self (QUOTE :: body ++ [QUOTE])
        = Return [mkToken (QUOTE :: body ++ [QUOTE]) "CADENA"
                    [("valor", VStr body); ("fila", VInt 1%Z);
                     ("columna", VInt 1%Z)]])
  /\ tokenizar self (QUOTE :: str "hola" ++ [QUOTE])
     = Return [mkToken (QUOTE :: str "hola" ++ [QUOTE]) "CADENA"
                 [("valor", VStr (str "hola")); ("fila", VInt 1%Z);
                  ("columna", VInt 1%Z)]]
  /\ tokenizar self (QUOTE :: str "a\tb" ++ [QUOTE])
     = Return [mkToken (QUOTE :: str "a\tb" ++ [QUOTE]) "CADENA"
                 [("valor", VStr (str "a\tb")); ("fila", VInt 1%Z);
                  ("columna", VInt 1%Z)]].
Proof.
  assert (General : forall body,
            Forall interior body ->
            tokenizar self (QUOTE :: body ++ [QUOTE])
            = Return [mkToken (QUOTE :: body ++ [QUOTE]) "CADENA"
                        [("valor", VStr body); ("fila", VInt 1%Z);
                         ("columna", VInt 1%Z)]]).
  { intros body Hb. unfold tokenizar. rewrite (finditer_cadena Hb).
    set (texto := QUOTE :: body ++ [QUOTE]).
    assert (Eg : group (mkMatch 0 (length texto) "CADENA") texto = texto).
    { unfold group, slice. cbn [m_start m_end].
      rewrite Nat.sub_0_r. change (skipn 0 texto) with texto.
      apply firstn_all. }
    unfold bucle, cuerpo, hueco. rewrite Eg. cbn [m_start m_end lastgroup pos].
    cbn [Nat.eqb negb bind].
    change (String.eqb "CADENA" "NL") with false.
    change (existsb (String.eqb "CADENA") _) with false.
    change (_clasificar "CADENA" texto)
      with ("CADENA", [("valor", VStr (slice texto 1 (length texto - 1)))]).
    cbv iota beta.
    cbn [bind tokens linea linea_inicio pos app dict_update fold_left
         dict_set fst snd String.eqb Ascii.eqb Bool.eqb].
    change (Z.of_nat 0 - 0 + 1)%Z with 1%Z.
    unfold resto. cbn [pos tokens]. rewrite Nat.ltb_irrefl.
    unfold texto at 2 3. rewrite sin_comillas. reflexivity. }
  split; [reflexivity|]. split; [|split; [exact General|]].
  - intros texto toks H.
    destruct (finditer_defined texto) as (ms & Hfi & Hch).
    rewrite (@tokenizar_desde self texto ms Hfi) in H.
    eapply desde_cadena_ok; [exact Hch | exact H | constructor].
  - split; apply General; repeat constructor; discriminate.
Qed.

Lemma C9_cadena_witness :
  let lx := QUOTE :: str "a\b" ++ [QUOTE] in
  let t := mkToken lx "CADENA"
             [("valor", VStr (str "a\b")); ("fila", VInt 1%Z);
              ("columna", VInt 1%Z)] in
  tokenizar (estricto false) lx = Return [t] /\ cadena_ok t.
Proof.
  intros lx t.
  destruct (C9_cadena (estricto false)) as (_ & H2 & H3 & _).
  assert (E : tokenizar (estricto false) lx = Return [t]).
  { apply (H3 (str "a\b")). repeat constructor; discriminate. }
  split; [exact E|].
  apply H2 in E. inversion E. assumption.
Defined.

(** C10.  The empty input gives the empty token list, whatever the two
    options. *)
Theorem C10_texto_vacio (self : Explorador) : tokenizar self [] = Return [].
Proof. destruct self as [[] []]; reflexivity. Qed.

Unset Implicit Arguments.

(** ** Further properties: what the scanner steps over *)

Lemma search_leftmost (s : text) :
  forall p m, search s p = Some m ->
    forall j, j < m_start m - p -> MASTER_RE (skipn j s) = None.
Proof.
  induction s as [|x s IH]; intros p m H j Hj; rewrite search_eq in H.
  - rewrite MASTER_RE_nil in H. discriminate.
  - destruct (MASTER_RE (x :: s)) as [[g n]|] eqn:E.
    + injection H as <-. simpl in Hj. lia.
    + destruct j as [|j]; [exact E|]. simpl.
      apply (IH (S p) m H). lia.
Qed.

Lemma search_none (s : text) :
  forall p, search s p = None -> forall j, MASTER_RE (skipn j s) = None.
Proof.
  induction s as [|x s IH]; intros p H j; rewrite search_eq in H.
  - rewrite skipn_nil. apply MASTER_RE_nil.
  - destruct (MASTER_RE (x :: s)) as [[g n]|] eqn:E; [discriminate|].
    destruct j as [|j]; [exact E|]. simpl. apply (IH (S p) H).
Qed.

Lemma finditer_from_huecos (texto : text) :
  forall fuel p ms,
    finditer_from fuel texto p = Some ms -> huecos_sin_regla texto p ms.
Proof.
  induction fuel as [|fuel IH]; intros p ms H; simpl in H; [discriminate|].
  destruct (search (skipn p texto) p) as [m|] eqn:E.
  - pose proof (search_in_text _ _ E) as (H1 & H2 & H3 & H4).
    replace (m_end m =? m_start m) with false in H
      by (symmetry; apply Nat.eqb_neq; lia).
    destruct (finditer_from fuel texto (m_end m)) as [ms'|] eqn:E';
      [|discriminate].
    injection H as <-. simpl. split; [|apply IH; exact E'].
    intros q Hq1 Hq2.
    replace q with ((q - p) + p) by lia. rewrite <- skipn_skipn.
    apply (search_leftmost _ _ _ E). lia.
  - injection H as <-. simpl. intros q Hq1 Hq2.
    replace q with ((q - p) + p) by lia. rewrite <- skipn_skipn.
    apply (search_none _ _ E).
Qed.

Lemma segmentos_sin_regla (texto : text) (chunk : text) :
  forall ms p, huecos_sin_regla texto p ms ->
    In (Hueco chunk) (segmentos texto p ms) ->
    exists a b, sin_regla texto a b /\ chunk = slice texto a b.
Proof.
  induction ms as [|m ms IH]; intros p H Hin; simpl in *.
  - destruct (p <? length texto); [|contradiction].
    destruct Hin as [E|[]]. injection E as <-. eauto.
  - destruct H as [H1 H2]. apply in_app_or in Hin.
    destruct Hin as [Hin|[Hin|Hin]]; [|discriminate|eauto].
    destruct (m_start m =? p); simpl in Hin; [contradiction|].
    destruct Hin as [E|[]]. injection E as <-. eauto.
Qed.

Lemma firstn_In_skipn (c : char) :
  forall n (l : text), In c (firstn n l) ->
    exists j rest, j < n /\ skipn j l = c :: rest.
Proof.
  induction n as [|n IH]; intros l H; [rewrite firstn_O in H; contradiction|].
  destruct l as [|x l]; simpl in H; [contradiction|].
  destruct H as [->|H].
  - exists 0, l. split; [lia | reflexivity].
  - destruct (IH l H) as (j & rest & Hj & E).
    exists (S j), rest. split; [lia | exact E].
Qed.

Lemma slice_In_skipn (t : text) (a b : nat) (c : char) :
  In c (slice t a b) ->
  exists q rest, a <= q /\ q < b /\ skipn q t = c :: rest.
Proof.
  unfold slice. intros H. apply firstn_In_skipn in H.
  destruct H as (j & rest & Hj & E). rewrite skipn_skipn in E.
  exists (j + a), rest. repeat split; [lia | lia | exact E].
Qed.

(** *** Characters that always start a match *)

Lemma star_loop_total (A : Type)
    (body : text -> (text -> option A) -> option A) (k : text -> option A) :
  (forall s, k s <> None) -> forall n s, star_loop body n s k <> None.
Proof.
  intros Hk. induction n as [|n IH]; intros s; simpl; [apply Hk|].
  destruct (body s _); [discriminate | apply Hk].
Qed.

Lemma first_rule_some (s : text) (g : string) (r : regex) :
  forall rules, In (g, r) rules -> match_len r s <> None ->
    first_rule rules s <> None.
Proof.
  induction rules as [|[g' r'] rules IH]; intros Hin Hr; [contradiction|].
  simpl. destruct (match_len r' s) as [n|] eqn:E; [discriminate|].
  destruct Hin as [Hin|Hin]; [|now apply IH].
  injection Hin as -> ->. contradiction.
Qed.

Lemma rmatch_Alts_some (A : Type) (s : text) (k : text -> option A)
    (r : regex) :
  forall rs, In r rs -> rmatch r s k <> None -> rmatch (Alts rs) s k <> None.
Proof.
  induction rs as [|r0 rs IH]; intros Hin Hr; [contradiction|].
  destruct rs as [|r1 rs].
  - destruct Hin as [->|[]]. exact Hr.
  - change (Alts (r0 :: r1 :: rs)) with (Alt r0 (Alts (r1 :: rs))).
    simpl rmatch. destruct (rmatch r0 s k) eqn:E; [discriminate|].
    destruct Hin as [->|Hin]; [contradiction|]. now apply IH.
Qed.

Lemma existsb_item (c : char) (i : item) (items : list item) :
  In i items -> item_has i c = true ->
  existsb (fun i => item_has i c) items = true.
Proof. intros Hin H. apply existsb_exists. eauto. Qed.

(** A character of a class, then a repetition: the first character is
    enough to match. *)
Lemma Any_Star_some (items : list item) (r : regex) (c : char)
    (rest : text) :
  existsb (fun i => item_has i c) items = true ->
  match_len (Seq (Any items) (Star r)) (c :: rest) <> None.
Proof.
  intros H. unfold match_len. cbn [rmatch one_char].
  rewrite H. apply star_loop_total. discriminate.
Qed.

Lemma Alts_Lit_some (c : char) (rest : text) (rs : list regex) :
  In (Lit c) rs -> match_len (Alts rs) (c :: rest) <> None.
Proof.
  intros Hin. unfold match_len. eapply rmatch_Alts_some; [exact Hin|].
  simpl. rewrite N.eqb_refl. discriminate.
Qed.

Transparent MASTER_RE.

Lemma MASTER_RE_empieza (c : char) (rest : text) :
  empieza c = true -> MASTER_RE (c :: rest) <> None.
Proof.
  unfold empieza. intros H. apply existsb_exists in H.
  destruct H as (i & Hin & Hi). unfold MASTER_RE.
  simpl in Hin.
  destruct Hin as [<-|Hin].
  { (* the newline *)
    apply N.eqb_eq in Hi. subst c.
    apply (@first_rule_some _ "NL" NL); [simpl; auto 10|].
    unfold match_len, NL, Plus, Opt. simpl rmatch. unfold one_char.
    simpl. apply star_loop_total. discriminate. }
  do 5 (destruct Hin as [<-|Hin];
        [ apply (@first_rule_some _ "ESPACIO" ESPACIO); [simpl; auto 10|];
          apply Any_Star_some; eapply existsb_item; [|exact Hi];
          simpl; auto 10 |]).
  destruct Hin as [<-|Hin].
  { apply (@first_rule_some _ "NUM_ENTERO" NUM_ENTERO); [simpl; auto 10|].
    apply Any_Star_some. eapply existsb_item; [|exact Hi]. simpl; auto. }
  do 3 (destruct Hin as [<-|Hin];
        [ apply (@first_rule_some _ "IDENT" IDENT); [simpl; auto 20|];
          apply Any_Star_some; eapply existsb_item; [|exact Hi];
          simpl; auto 10 |]).
  do 9 (destruct Hin as [<-|Hin];
        [ apply N.eqb_eq in Hi; subst c;
          apply (@first_rule_some _ "OPERADOR" OPS_RE); [simpl; auto 20|];
          apply Alts_Lit_some; simpl; auto 30 |]).
  do 9 (destruct Hin as [<-|Hin];
        [ apply N.eqb_eq in Hi; subst c;
          apply (@first_rule_some _ "SIMBOLO" PUNCT_RE); [simpl; auto 20|];
          apply Alts_Lit_some; simpl; auto 30 |]).
  contradiction.
Qed.

Opaque MASTER_RE.

(** X1.  A gap holds no character at which a rule always matches: no
    newline, no blank of [ESPACIO], no digit, letter or underscore, no
    one-character operator, no punctuation.  So the newline replacements
    applied to a gap change nothing. *)
Theorem X1_hueco_sin_comienzo (texto : text) (ms : list Match)
    (chunk : text) :
  finditer texto = Some ms ->
  In (Hueco chunk) (segmentos texto 0 ms) ->
  Forall (fun c => empieza c = false /\ c <> LF) chunk
  /\ forall por, replace chunk LF por = chunk.
Proof.
  intros Hfi Hin.
  assert (HF : Forall (fun c => empieza c = false /\ c <> LF) chunk).
  { apply finditer_from_huecos in Hfi.
    destruct (@segmentos_sin_regla texto chunk ms 0 Hfi Hin)
      as (a & b & Hab & ->).
    apply Forall_forall. intros c Hc.
    apply slice_In_skipn in Hc. destruct Hc as (q & rest & Hq1 & Hq2 & E).
    specialize (Hab q Hq1 Hq2). rewrite E in Hab.
    assert (He : empieza c = false).
    { destruct (empieza c) eqn:He; [|reflexivity].
      exfalso. exact (@MASTER_RE_empieza c rest He Hab). }
    split; [exact He|]. intros ->. discriminate. }
  split; [exact HF|].
  intros por. unfold replace. clear -HF.
  induction HF as [|c chunk [_ Hc] _ IH]; [reflexivity|].
  simpl. apply N.eqb_neq in Hc. rewrite Hc. simpl. now rewrite IH.
Qed.

Lemma X1_hueco_sin_comienzo_witness :
  Forall (fun c => empieza c = false /\ c <> LF) (str "@#")
  /\ forall por, replace (str "@#") LF por = str "@#".
Proof.
  apply (@X1_hueco_sin_comienzo (str "a @# b")
           [mkMatch 0 1 "IDENT"; mkMatch 1 2 "ESPACIO";
            mkMatch 4 5 "ESPACIO"; mkMatch 5 6 "IDENT"] (str "@#")).
  - vm_compute. reflexivity.
  - vm_compute. auto.
Defined.

(** ** Further properties: comments and operators *)

Transparent MASTER_RE.

(** X2.  At [//] the scanner takes a line comment, whatever follows: the
    comment runs to the end of the input or through the first newline,
    which it takes with it. *)
Theorem X2_comentario_linea (run s' : text) :
  Forall (fun c => c <> LF) run ->
  (s' = [] \/ exists v, s' = LF :: v) ->
  MASTER_RE (str "//" ++ run ++ s')
  = Some ("COMENT_LINEA",
          2 + length run + match s' with [] => 0 | _ => 1 end).
Proof.
  intros Hrun Hs'. unfold MASTER_RE, TOKEN_SPEC, first_rule.
  change (str "//" ++ run ++ s') with (ch "/" :: ch "/" :: run ++ s').
  change (match_len COMENT_BLOQ (ch "/" :: ch "/" :: run ++ s'))
    with (@None nat).
  cbv iota beta.
  assert (E : match_len COMENT_LINEA (ch "/" :: ch "/" :: run ++ s')
              = Some (2 + length run + match s' with [] => 0 | _ => 1 end)).
  { unfold match_len, COMENT_LINEA.
    change (rmatch (Seq (Lits (str "//")) ?r) (ch "/" :: ch "/" :: ?s) ?k)
      with (rmatch r s k).
    change (rmatch (Seq (Star ?r) ?r2) ?s ?k)
      with (star_loop (rmatch r) (length s) s (fun s1 => rmatch r2 s1 k)).
    apply star_none_of_run.
    - destruct Hs' as [-> | (v & ->)]; cbn -[Nat.sub length app];
        f_equal; cbn [length]; rewrite length_app; cbn [length]; lia.
    - intros c v E. destruct Hs' as [-> | (v' & ->)]; [discriminate|].
      injection E as <- _. reflexivity.
    - clear -Hrun. induction Hrun as [|c run Hc _ IH]; constructor;
        [|assumption].
      simpl. apply N.eqb_neq in Hc. now rewrite Hc.
    - lia. }
  rewrite E. reflexivity.
Qed.

Lemma X2_comentario_linea_witness :
  MASTER_RE (str "// nota" ++ [LF] ++ str "x") = Some ("COMENT_LINEA", 8).
Proof.
  apply (@X2_comentario_linea (str " nota") (LF :: str "x")).
  - repeat constructor; discriminate.
  - right. eexists. reflexivity.
Defined.

(** What the block-comment rule accepts begins with the opener and ends
    with the closer. *)
Lemma matches_COMENT_BLOQ (u : text) :
  matches COMENT_BLOQ u -> exists w, u = str "/*" ++ w ++ str "*/".
Proof.
  intros H.
  change COMENT_BLOQ
    with (Seq (Seq (Lit (ch "/")) (Lit (ch "*")))
              (Seq (Star (Alt (NoneOf [One (ch "*")])
                              (Seq (Lit (ch "*")) (NoneOf [One (ch "/")]))))
                   (Seq (Lit (ch "*")) (Lit (ch "/"))))) in H.
  inversion H as [| | | |r1 r2 u1 u2 H1 H2| | | |]; subst.
  inversion H1 as [| | | |r1 r2 a b Ha Hb| | | |]; subst.
  inversion Ha; subst. inversion Hb; subst.
  inversion H2 as [| | | |r1 r2 w u3 Hw H3| | | |]; subst.
  inversion H3 as [| | | |r1 r2 a b Ha' Hb'| | | |]; subst.
  inversion Ha'; subst. inversion Hb'; subst.
  exists w. reflexivity.
Qed.

Lemma contiene_cierre_app (w v : text) :
  contiene_cierre (w ++ ch "*" :: ch "/" :: v) = true.
Proof.
  induction w as [|c w IH]; [reflexivity|].
  change ((c :: w) ++ ch "*" :: ch "/" :: v)
    with (c :: (w ++ ch "*" :: ch "/" :: v)).
  destruct (w ++ ch "*" :: ch "/" :: v) as [|d l] eqn:E.
  - destruct w; discriminate.
  - change (contiene_cierre (c :: d :: l))
      with ((N.eqb c (ch "*") && N.eqb d (ch "/")) || contiene_cierre (d :: l)).
    rewrite IH. apply orb_true_r.
Qed.

(** X3.  A block-comment opener with no closer anywhere after it is not a
    comment and not an error: the scanner takes its slash as an operator
    of one character. *)
Theorem X3_bloque_sin_cierre (rest : text) :
  contiene_cierre rest = false ->
  match_len COMENT_BLOQ (str "/*" ++ rest) = None
  /\ MASTER_RE (str "/*" ++ rest) = Some ("OPERADOR", 1).
Proof.
  intros Hno.
  assert (E : match_len COMENT_BLOQ (str "/*" ++ rest) = None).
  { destruct (match_len COMENT_BLOQ (str "/*" ++ rest)) as [n|] eqn:E;
      [|reflexivity].
    exfalso. apply match_len_sound in E.
    destruct E as (u & v & E & Hu & _).
    apply matches_COMENT_BLOQ in Hu. destruct Hu as (w & ->).
    change (str "/*" ++ rest) with (ch "/" :: ch "*" :: rest) in E.
    change ((str "/*" ++ w ++ str "*/") ++ v)
      with (ch "/" :: ch "*" :: (w ++ str "*/") ++ v) in E.
    injection E as E. rewrite <- app_assoc in E.
    change (str "*/" ++ v) with (ch "*" :: ch "/" :: v) in E.
    rewrite E, contiene_cierre_app in Hno. discriminate. }
  split; [exact E|].
  unfold MASTER_RE, TOKEN_SPEC, first_rule. rewrite E.
  change (str "/*" ++ rest) with (ch "/" :: ch "*" :: rest).
  change (match_len COMENT_LINEA (ch "/" :: ch "*" :: rest)) with (@None nat).
  change (match_len ESPACIO (ch "/" :: ch "*" :: rest)) with (@None nat).
  change (match_len NL (ch "/" :: ch "*" :: rest)) with (@None nat).
  change (match_len CADENA (ch "/" :: ch "*" :: rest)) with (@None nat).
  change (match_len NUM_FLOTANTE (ch "/" :: ch "*" :: rest)) with (@None nat).
  change (match_len NUM_ENTERO (ch "/" :: ch "*" :: rest)) with (@None nat).
  change (match_len OPS_RE (ch "/" :: ch "*" :: rest))
    with (Some (length (ch "/" :: ch "*" :: rest)
                - length (ch "*" :: rest))).
  cbv iota beta. f_equal. f_equal. simpl length. lia.
Qed.

Lemma X3_bloque_sin_cierre_witness :
  match_len COMENT_BLOQ (str "/* sin fin") = None
  /\ MASTER_RE (str "/* sin fin") = Some ("OPERADOR", 1).
Proof.
  apply (@X3_bloque_sin_cierre (str " sin fin")). reflexivity.
Defined.

(** X4.  At each of the eleven two-character operators the scanner takes
    both characters as one operator, whatever follows. *)
Theorem X4_operador_de_dos (op : string) (rest : text) :
  In op ["||"; "&&"; "=="; "!="; "<="; ">="; "+="; "-="; "*="; "/="; "%="] ->
  MASTER_RE (str op ++ rest) = Some ("OPERADOR", 2).
Proof.
  intros Hin. simpl in Hin.
  assert (L : forall a b : char,
            Some ("OPERADOR", length (a :: b :: rest) - length rest)
            = Some ("OPERADOR", 2))
    by (intros; simpl length; do 2 f_equal; lia).
  repeat (destruct Hin as [<-|Hin]; [apply L|]). contradiction.
Qed.

Lemma X4_operador_de_dos_witness :
  MASTER_RE (str "<=" ++ str "10") = Some ("OPERADOR", 2).
Proof. apply X4_operador_de_dos. simpl. auto 10. Defined.

(** X5.  An ampersand or a bar that is not doubled matches no rule: alone
    they are unrecognized input, not operators. *)
Theorem X5_ampersand_solo (c d : char) (rest : text) :
  (c = ch "&" \/ c = ch "|") -> d <> c ->
  MASTER_RE (c :: d :: rest) = None /\ MASTER_RE [c] = None.
Proof.
  intros Hc Hd. apply N.eqb_neq in Hd. rewrite N.eqb_sym in Hd.
  destruct Hc as [-> | ->]; (split; [|reflexivity]);
    unfold MASTER_RE, TOKEN_SPEC, first_rule, match_len;
    cbn -[N.eqb length Nat.sub]; cbn -[N.eqb] in Hd;
    rewrite ?Hd; reflexivity.
Qed.

Lemma X5_ampersand_solo_witness :
  MASTER_RE (str "&x") = None /\ MASTER_RE (str "&") = None.
Proof.
  apply (@X5_ampersand_solo (ch "&") (ch "x") []).
  - left. reflexivity.
  - discriminate.
Defined.

Opaque MASTER_RE.

(** ** Further properties: the loop, round by round *)

Lemma cuerpo_emitidos (self : Explorador) (texto : text) (st st1 : estado)
    (m : Match) :
  cuerpo self texto st m = Return st1 ->
  hueco self texto st (m_start m) = Return tt
  /\ pos st1 = m_end m
  /\ tokens st1
     = tokens st ++ emitidos self (lastgroup m) (group m texto) (linea st)
                      (Z.of_nat (m_start m) - linea_inicio st + 1)
  /\ linea st1
     = (if String.eqb (lastgroup m) "NL"
        then linea st + count (group m texto) LF else linea st)%Z
  /\ linea_inicio st1
     = (if String.eqb (lastgroup m) "NL"
        then if negb (rfind (group m texto) LF =? -1)%Z
             then Z.of_nat (m_start m) + rfind (group m texto) LF + 1
             else linea_inicio st
        else linea_inicio st)%Z.
Proof.
  unfold cuerpo, emitidos. intros H.
  destruct (hueco self texto st (m_start m)) as [[]| |]; try discriminate.
  unfold bind in H. split; [reflexivity|].
  destruct (String.eqb (lastgroup m) "NL").
  - injection H as <-. simpl.
    destruct (con_nuevaslineas self); rewrite ?app_nil_r; auto.
  - destruct (existsb _ _).
    + injection H as <-. simpl. rewrite app_nil_r. auto.
    + destruct (_clasificar _ _) as [t1 a1].
      injection H as <-. simpl. auto.
Qed.

Transparent MASTER_RE.

(** The name of a match is one of the ten names of the table, and its
    lexeme is accepted by the rule of that name. *)
Lemma group_matches (texto : text) (m : Match) :
  m_end m <= length texto ->
  MASTER_RE (skipn (m_start m) texto)
    = Some (lastgroup m, m_end m - m_start m) ->
  exists r, In (lastgroup m, r) TOKEN_SPEC /\ matches r (group m texto).
Proof.
  intros Hle H. unfold MASTER_RE in H.
  apply first_rule_sound in H. destruct H as (r & Hin & H).
  apply match_len_sound in H. destruct H as (u & v & E & Hu & Hn).
  exists r. split; [exact Hin|].
  unfold group, slice. rewrite E, Hn.
  replace (length u) with (length u + 0) by lia.
  rewrite firstn_app_2. simpl. now rewrite app_nil_r.
Qed.

Opaque MASTER_RE.

Lemma resto_inv (self : Explorador) (texto : text) (st : estado)
    (toks : list Token) :
  resto self texto st = Return toks ->
  toks = tokens st
  \/ (tolerante self = true /\ pos st < length texto /\
      malo (slice texto (pos st) (length texto)) = true /\
      toks = tokens st
             ++ [mkToken (slice texto (pos st) (length texto)) "ERROR"
                   [("fila", VInt (linea st));
                    ("columna",
                     VInt (Z.of_nat (pos st) - linea_inicio st + 1));
                    ("motivo", VStr (str "desconocido"))]]).
Proof.
  unfold resto. rewrite _consume_desconocido_spec, negb_involutive.
  destruct (pos st <? length texto) eqn:E;
    [|intros H; injection H as <-; auto].
  apply Nat.ltb_lt in E.
  destruct (malo _) eqn:Em; [|intros H; injection H as <-; auto].
  destruct (tolerante self); [|discriminate].
  intros H. injection H as <-. right. auto.
Qed.

Section Invariante.

Variable self : Explorador.
Variable texto : text.
Variable I : estado -> Prop.
Variable Q : Token -> Prop.
Variable F : Token -> Prop.

Hypothesis paso : forall st m st1,
  I st -> pos st <= m_start m -> m_start m < m_end m ->
  m_end m <= length texto ->
  MASTER_RE (skipn (m_start m) texto)
    = Some (lastgroup m, m_end m - m_start m) ->
  cuerpo self texto st m = Return st1 ->
  I st1 /\
  Forall Q (emitidos self (lastgroup m) (group m texto) (linea st)
              (Z.of_nat (m_start m) - linea_inicio st + 1)).

Hypothesis final : forall st,
  I st -> pos st < length texto ->
  sin_regla texto (pos st) (length texto) ->
  tolerante self = true ->
  malo (slice texto (pos st) (length texto)) = true ->
  F (mkToken (slice texto (pos st) (length texto)) "ERROR"
       [("fila", VInt (linea st));
        ("columna", VInt (Z.of_nat (pos st) - linea_inicio st + 1));
        ("motivo", VStr (str "desconocido"))]).

(** What the rounds keep, the tokens have: all but a last [ERROR] token
    satisfy [Q], and that one satisfies [F]. *)
Lemma desde_inv (ms : list Match) :
  forall st toks,
    I st -> encadenado texto (pos st) ms ->
    huecos_sin_regla texto (pos st) ms ->
    desde self texto ms st = Return toks ->
    exists base,
      Forall Q base /\
      (toks = tokens st ++ base \/
       exists e, toks = tokens st ++ base ++ [e] /\ F e /\
                 tipo e = "ERROR" /\ tolerante self = true).
Proof.
  induction ms as [|m ms IH]; intros st toks HI Hch Hsr H.
  - unfold desde in H. simpl in H. exists []. split; [constructor|].
    apply resto_inv in H. destruct H as [-> | (Ht & Hp & Hm & ->)].
    + left. now rewrite app_nil_r.
    + right. eexists. split; [reflexivity|].
      split; [|split; [reflexivity | exact Ht]].
      apply final; assumption.
  - rewrite desde_cons in H.
    destruct Hch as (H1 & H2 & H3 & H4 & Hch). destruct Hsr as [_ Hsr].
    destruct (cuerpo self texto st m) as [st1| |] eqn:E; try discriminate.
    simpl in H.
    destruct (@paso st m st1 HI H1 H2 H3 H4 E) as [HI1 HQ].
    apply cuerpo_emitidos in E. destruct E as (_ & Ep & Et & _).
    rewrite <- Ep in Hch, Hsr.
    destruct (IH st1 toks HI1 Hch Hsr H) as (base & Hb & Hbase).
    rewrite Et in Hbase.
    exists (emitidos self (lastgroup m) (group m texto) (linea st)
              (Z.of_nat (m_start m) - linea_inicio st + 1) ++ base).
    split; [apply Forall_app; auto|].
    destruct Hbase as [-> | (e & -> & He)].
    + left. now rewrite app_assoc.
    + right. exists e. split; [|exact He].
      now rewrite <- !app_assoc.
Qed.

End Invariante.

(** From the call to the loop. *)
Lemma tokenizar_inv (self : Explorador) (texto : text)
    (I : estado -> Prop) (Q F : Token -> Prop) :
  (forall st m st1,
     I st -> pos st <= m_start m -> m_start m < m_end m ->
     m_end m <= length texto ->
     MASTER_RE (skipn (m_start m) texto)
       = Some (lastgroup m, m_end m - m_start m) ->
     cuerpo self texto st m = Return st1 ->
     I st1 /\
     Forall Q (emitidos self (lastgroup m) (group m texto) (linea st)
                 (Z.of_nat (m_start m) - linea_inicio st + 1))) ->
  (forall st,
     I st -> pos st < length texto ->
     sin_regla texto (pos st) (length texto) ->
     tolerante self = true ->
     malo (slice texto (pos st) (length texto)) = true ->
     F (mkToken (slice texto (pos st) (length texto)) "ERROR"
          [("fila", VInt (linea st));
           ("columna", VInt (Z.of_nat (pos st) - linea_inicio st + 1));
           ("motivo", VStr (str "desconocido"))])) ->
  I (mkEstado [] 1%Z 0%Z 0) ->
  forall toks, tokenizar self texto = Return toks ->
    exists base,
      Forall Q base /\
      (toks = base \/
       exists e, toks = base ++ [e] /\ F e /\ tipo e = "ERROR" /\
                 tolerante self = true).
Proof.
  intros Hpaso Hfinal HI toks H.
  destruct (finditer_defined texto) as (ms & Hfi & Hch).
  rewrite (@tokenizar_desde self texto ms Hfi) in H.
  apply finditer_from_huecos in Hfi.
  exact (@desde_inv self texto I Q F Hpaso Hfinal ms _ toks HI Hch Hfi H).
Qed.

Lemma text_eqb_eq (a b : text) : text_eqb a b = true <-> a = b.
Proof.
  revert b. induction a as [|x a IH]; intros [|y b]; simpl;
    try (split; [discriminate | discriminate]); [tauto|].
  rewrite andb_true_iff, N.eqb_eq, IH.
  split; [intros [-> ->]; reflexivity | intros E; injection E; auto].
Qed.

Lemma _clasificar_IDENT (lx : text) :
  _clasificar "IDENT" lx
  = if es_clave lx then ("PALABRA_CLAVE", []) else ("IDENT", []).
Proof. reflexivity. Qed.

(** What a round appends, group by group: the token keeps the lexeme of
    the match, its kind is bound to the group, and the rule of the group is
    the rule of the kind. *)
Lemma emitidos_spec (self : Explorador) (g : string) (r : regex)
    (lx : text) (f c : Z) (t : Token) :
  In (g, r) TOKEN_SPEC ->
  In t (emitidos self g lx f c) ->
  lexema t = lx /\ patron_de (tipo t) = Some r /\
  ((g = "NL" /\ con_nuevaslineas self = true /\ tipo t = "NL" /\
    atributos t = [("fila", VInt f); ("columna", VInt c)])
   \/ (g = "IDENT" /\ es_clave lx = true /\ tipo t = "PALABRA_CLAVE" /\
       atributos t = [("fila", VInt f); ("columna", VInt c)])
   \/ (g = "IDENT" /\ es_clave lx = false /\ tipo t = "IDENT" /\
       atributos t = [("fila", VInt f); ("columna", VInt c)])
   \/ (g = "CADENA" /\ tipo t = "CADENA" /\
       atributos t = [("valor", VStr (slice lx 1 (length lx - 1)));
                      ("fila", VInt f); ("columna", VInt c)])
   \/ (In g ["NUM_ENTERO"; "NUM_FLOTANTE"; "OPERADOR"; "SIMBOLO"] /\
       tipo t = g /\
       atributos t = [("fila", VInt f); ("columna", VInt c)])).
Proof.
  intros Hin Ht. unfold TOKEN_SPEC in Hin. simpl in Hin.
  destruct Hin as [E|[E|[E|[E|[E|[E|[E|[E|[E|[E|[]]]]]]]]]]];
    injection E as <- <-; unfold emitidos in Ht; simpl in Ht;
    try contradiction.
  - (* NL *)
    destruct (con_nuevaslineas self) eqn:En; [|contradiction].
    destruct Ht as [<-|[]]. simpl. auto 10.
  - destruct Ht as [<-|[]]. simpl. auto 10.
  - destruct Ht as [<-|[]]. simpl. auto 15.
  - destruct Ht as [<-|[]]. simpl. auto 15.
  - destruct Ht as [<-|[]]. simpl. auto 15.
  - destruct Ht as [<-|[]]. simpl. auto 15.
  - (* IDENT *)
    rewrite _clasificar_IDENT in Ht.
    destruct (es_clave lx) eqn:Ek; destruct Ht as [<-|[]]; simpl; auto 10.
Qed.

(** ** Further properties: the tokens a call returns *)

(** X6.  The tokens a call returns have one of the seven kinds of a match,
    or [NL] when newlines are kept; comments and blanks give no token.  An
    [ERROR] token comes only in tolerant mode and only last: its lexeme is
    the rest of the input from some offset on, holds a character that is
    not white space, and its reason is [desconocido]. *)
Theorem X6_tipos (self : Explorador) (texto : text) (toks : list Token) :
  tokenizar self texto = Return toks ->
  exists base,
    Forall (fun t => In (tipo t) TIPOS
                     \/ (con_nuevaslineas self = true /\ tipo t = "NL"))
           base /\
    (toks = base \/
     exists e p,
       toks = base ++ [e] /\ tolerante self = true /\ tipo e = "ERROR" /\
       p < length texto /\ lexema e = skipn p texto /\
       malo (lexema e) = true /\
       dict_get (atributos e) "motivo" = Some (VStr (str "desconocido"))).
Proof.
  intros H.
  destruct (@tokenizar_inv self texto (fun _ => True)
              (fun t => In (tipo t) TIPOS
                        \/ (con_nuevaslineas self = true /\ tipo t = "NL"))
              (fun e => exists p, p < length texto /\
                          lexema e = skipn p texto /\
                          malo (lexema e) = true /\
                          dict_get (atributos e) "motivo"
                          = Some (VStr (str "desconocido"))))
    with (toks := toks) as (base & Hb & Hbase); try exact I; try exact H.
  - intros st m st1 _ _ _ Hle Hm _. split; [exact I|].
    destruct (group_matches _ _ Hle Hm) as (r & Hin & _).
    apply Forall_forall. intros t Ht.
    destruct (emitidos_spec _ _ _ _ _ _ _ Hin Ht)
      as (_ & _ & [(_ & Hn & -> & _) | [(_ & _ & -> & _) |
          [(_ & _ & -> & _) | [(_ & -> & _) | (Hg & -> & _)]]]]);
      unfold TIPOS; simpl; auto 10.
    simpl in Hg. intuition (subst; auto 10).
  - intros st _ Hp _ _ Hm. exists (pos st). simpl.
    rewrite slice_to_end in *. auto.
  - exists base. split; [exact Hb|].
    destruct Hbase as [-> | (e & -> & (p & Hp & He & Hm & Hmo) & Ht & Htol)];
      [now left|].
    right. exists e, p. auto 10.
Qed.

Lemma X6_tipos_witness :
  exists base,
    Forall (fun t => In (tipo t) TIPOS \/ (true = true /\ tipo t = "NL"))
           base /\
    (exists e p,
       [mkToken (str "x") "IDENT" [("fila", VInt 1%Z); ("columna", VInt 1%Z)];
        mkToken (str "@") "ERROR"
          [("fila", VInt 1%Z); ("columna", VInt 3%Z);
           ("motivo", VStr (str "desconocido"))]] = base ++ [e]
       /\ tipo e = "ERROR" /\ lexema e = skipn p (str "x @")).
Proof.
  destruct (@X6_tipos (mkExplorador true true) (str "x @")
              [mkToken (str "x") "IDENT"
                 [("fila", VInt 1%Z); ("columna", VInt 1%Z)];
               mkToken (str "@") "ERROR"
                 [("fila", VInt 1%Z); ("columna", VInt 3%Z);
                  ("motivo", VStr (str "desconocido"))]])
    as (base & Hb & Hbase).
  - vm_compute. reflexivity.
  - exists base. split; [exact Hb|].
    destruct Hbase as [E | (e & p & E & _ & Ht & _ & Hl & _)].
    + exfalso. subst base. inversion Hb as [|? ? _ Hb']. subst.
      inversion Hb' as [|? ? Hq _]. subst. simpl in Hq.
      destruct Hq as [Hq | [_ Hq]]; [|discriminate].
      repeat (destruct Hq as [Hq|Hq]; [discriminate|]). contradiction.
    + exists e, p. auto.
Defined.

(** *** Rows and columns *)

Lemma count_app (a b : text) (c : char) :
  count (a ++ b) c = (count a c + count b c)%Z.
Proof.
  unfold count. rewrite filter_app, length_app. apply Nat2Z.inj_add.
Qed.

Lemma count_nonneg (s : text) (c : char) : (0 <= count s c)%Z.
Proof. unfold count. apply Nat2Z.is_nonneg. Qed.

Lemma count_firstn_split (t : text) (c : char) (a b : nat) :
  a <= b ->
  count (firstn b t) c = (count (firstn a t) c + count (slice t a b) c)%Z.
Proof.
  intros Hab. rewrite <- count_app. f_equal.
  pose proof (@slice_split t 0 a b (Nat.le_0_l a) Hab) as E.
  unfold slice in E at 1 2. simpl skipn in E.
  rewrite !Nat.sub_0_r in E. exact E.
Qed.

Lemma count_firstn_le (t : text) (c : char) (p : nat) :
  (count (firstn p t) c <= count t c)%Z.
Proof.
  rewrite <- (firstn_skipn p t) at 2. rewrite count_app.
  pose proof (count_nonneg (skipn p t) c). lia.
Qed.

Lemma rfind_from_bounds (c : char) :
  forall s i found,
    rfind_from s c i found = found
    \/ (i <= rfind_from s c i found < i + Z.of_nat (length s))%Z.
Proof.
  induction s as [|x s IH]; intros i found; simpl rfind_from; [now left|].
  destruct (IH (i + 1)%Z (if N.eqb x c then i else found)) as [E|E].
  - rewrite E. destruct (N.eqb x c); [right | now left].
    simpl length. lia.
  - right. simpl length. lia.
Qed.

Lemma rfind_bounds (s : text) (c : char) :
  (-1 <= rfind s c < Z.of_nat (length s))%Z.
Proof.
  unfold rfind. destruct (rfind_from_bounds c s 0%Z (-1)%Z) as [E|E]; lia.
Qed.

(** X7.  Every token a call returns carries a row and a column, both
    counted from 1: the row is at most one more than the number of newlines
    of the input, the column at most the length of the input. *)
Theorem X7_fila_columna (self : Explorador) (texto : text)
    (toks : list Token) :
  tokenizar self texto = Return toks ->
  Forall (fun t =>
            exists f c,
              entero t "fila" = Some f /\ entero t "columna" = Some c /\
              (1 <= f <= 1 + count texto LF)%Z /\
              (1 <= c <= Z.of_nat (length texto))%Z) toks.
Proof.
  intros H.
  set (Q := fun t =>
              exists f c,
                entero t "fila" = Some f /\ entero t "columna" = Some c /\
                (1 <= f <= 1 + count texto LF)%Z /\
                (1 <= c <= Z.of_nat (length texto))%Z).
  destruct (tokenizar_inv self texto
              (fun st => (1 <= linea st
                          <= 1 + count (firstn (pos st) texto) LF)%Z
                         /\ (0 <= linea_inicio st <= Z.of_nat (pos st))%Z)
              Q Q) with (toks := toks) as (base & Hb & Hbase);
    try exact H.
  - intros st m st1 [Hl Hli] Hp Hse Hle Hm Hc.
    apply cuerpo_emitidos in Hc.
    destruct Hc as (_ & Ep & _ & El & Eli).
    pose proof (count_firstn_le texto LF (pos st)) as Hc0.
    pose proof (count_firstn_split texto LF (pos st) (m_start m) Hp) as Hc1.
    pose proof (count_firstn_split texto LF (m_start m) (m_end m)
                  (Nat.lt_le_incl _ _ Hse)) as Hc2.
    pose proof (count_nonneg (slice texto (pos st) (m_start m)) LF) as Hc3.
    pose proof (count_nonneg (slice texto (m_start m) (m_end m)) LF) as Hc4.
    fold (group m texto) in Hc2, Hc4.
    split.
    + rewrite Ep, El, Eli.
      pose proof (rfind_bounds (group m texto) LF) as Hr.
      assert (Hlen : length (group m texto) = m_end m - m_start m)
        by (apply slice_length; exact Hle).
      rewrite Hlen in Hr.
      destruct (String.eqb (lastgroup m) "NL");
        [destruct (negb _)|]; lia.
    + destruct (group_matches _ _ Hle Hm) as (r & Hin & _).
      apply Forall_forall. intros t Ht.
      pose proof (count_firstn_le texto LF (pos st)).
      assert (Hat : atributos t
                    = [("fila", VInt (linea st));
                       ("columna",
                        VInt (Z.of_nat (m_start m) - linea_inicio st + 1))]
                    \/ exists v,
                         atributos t
                         = [("valor", v); ("fila", VInt (linea st));
                            ("columna",
                             VInt (Z.of_nat (m_start m)
                                   - linea_inicio st + 1))]).
      { destruct (emitidos_spec _ _ _ _ _ _ _ Hin Ht)
          as (_ & _ & [(_ & _ & _ & E) | [(_ & _ & _ & E) |
              [(_ & _ & _ & E) | [(_ & _ & E) | (_ & _ & E)]]]]); eauto. }
      exists (linea st), (Z.of_nat (m_start m) - linea_inicio st + 1)%Z.
      unfold entero.
      destruct Hat as [-> | (v & ->)];
        (split; [reflexivity|]; split; [reflexivity|]; lia).
  - intros st [Hl Hli] Hp _ _ _.
    pose proof (count_firstn_le texto LF (pos st)).
    exists (linea st), (Z.of_nat (pos st) - linea_inicio st + 1)%Z.
    unfold entero.
    split; [reflexivity|]. split; [reflexivity|]. lia.
  - simpl. pose proof (count_nonneg [] LF). simpl firstn. lia.
  - destruct Hbase as [-> | (e & -> & He & _)]; [exact Hb|].
    apply Forall_app. split; [exact Hb|]. constructor; [exact He|constructor].
Qed.

Lemma X7_fila_columna_witness :
  Forall (fun t =>
            exists f c,
              entero t "fila" = Some f /\ entero t "columna" = Some c /\
              (1 <= f <= 1 + count (str "a" ++ [LF] ++ str "b") LF)%Z /\
              (1 <= c <= Z.of_nat (length (str "a" ++ [LF] ++ str "b")))%Z)
    [mkToken (str "a") "IDENT" [("fila", VInt 1%Z); ("columna", VInt 1%Z)];
     mkToken (str "b") "IDENT" [("fila", VInt 2%Z); ("columna", VInt 1%Z)]].
Proof.
  apply (X7_fila_columna (estricto false)). vm_compute. reflexivity.
Defined.

(** *** Lexemes *)

(** X8.  The lexeme of every token but a last [ERROR] one is accepted by
    the rule of its kind: an identifier or a keyword by [IDENT], an integer
    by [NUM_ENTERO], and so on. *)
Theorem X8_lexema_de_su_regla (self : Explorador) (texto : text)
    (toks : list Token) :
  tokenizar self texto = Return toks ->
  Forall (fun t => tipo t = "ERROR"
                   \/ exists r, patron_de (tipo t) = Some r
                                /\ matches r (lexema t)) toks.
Proof.
  intros H.
  destruct (tokenizar_inv self texto (fun _ => True)
              (fun t => exists r, patron_de (tipo t) = Some r
                                  /\ matches r (lexema t))
              (fun _ => True))
    with (toks := toks) as (base & Hb & Hbase); try exact I; try exact H.
  - intros st m st1 _ _ _ Hle Hm _. split; [exact I|].
    destruct (group_matches _ _ Hle Hm) as (r & Hin & Hr).
    apply Forall_forall. intros t Ht.
    destruct (emitidos_spec _ _ _ _ _ _ _ Hin Ht) as (El & Ep & _).
    exists r. rewrite El. auto.
  - intros. exact I.
  - assert (Hb' : Forall (fun t => tipo t = "ERROR"
                            \/ exists r, patron_de (tipo t) = Some r
                                         /\ matches r (lexema t)) base)
      by (eapply Forall_impl; [|exact Hb]; intros t Ht; now right).
    destruct Hbase as [-> | (e & -> & _ & He & _)]; [exact Hb'|].
    apply Forall_app. split; [exact Hb'|].
    constructor; [now left | constructor].
Qed.

Lemma X8_lexema_de_su_regla_witness :
  Forall (fun t => tipo t = "ERROR"
                   \/ exists r, patron_de (tipo t) = Some r
                                /\ matches r (lexema t))
    [mkToken (str "12") "NUM_ENTERO"
       [("fila", VInt 1%Z); ("columna", VInt 1%Z)]].
Proof.
  apply (X8_lexema_de_su_regla (estricto false) (str "12")).
  vm_compute. reflexivity.
Defined.

Lemma es_clave_true (lx : text) :
  es_clave lx = true <-> exists k, In k PALABRAS_CLAVE /\ lx = str k.
Proof.
  unfold es_clave. rewrite existsb_exists.
  split; intros (k & Hk & E); exists k; (split; [exact Hk|]).
  - apply text_eqb_eq in E. now symmetry.
  - apply text_eqb_eq. now symmetry.
Qed.

(** X9.  Among the tokens a call returns, those of kind [PALABRA_CLAVE] are
    exactly spelled as one of the reserved words, and no token of kind
    [IDENT] is spelled as one. *)
Theorem X9_palabras_clave (self : Explorador) (texto : text)
    (toks : list Token) :
  tokenizar self texto = Return toks ->
  Forall (fun t =>
            (tipo t = "PALABRA_CLAVE" ->
             exists k, In k PALABRAS_CLAVE /\ lexema t = str k)
            /\ (tipo t = "IDENT" ->
                forall k, In k PALABRAS_CLAVE -> lexema t <> str k)) toks.
Proof.
  intros H.
  set (Q := fun t =>
              (tipo t = "PALABRA_CLAVE" ->
               exists k, In k PALABRAS_CLAVE /\ lexema t = str k)
              /\ (tipo t = "IDENT" ->
                  forall k, In k PALABRAS_CLAVE -> lexema t <> str k)).
  destruct (tokenizar_inv self texto (fun _ => True) Q (fun _ => True))
    with (toks := toks) as (base & Hb & Hbase); try exact I; try exact H.
  - intros st m st1 _ _ _ Hle Hm _. split; [exact I|].
    destruct (group_matches _ _ Hle Hm) as (r & Hin & _).
    apply Forall_forall. intros t Ht.
    destruct (emitidos_spec _ _ _ _ _ _ _ Hin Ht)
      as (El & _ & [(_ & _ & Et & _) | [(_ & Ek & Et & _) |
          [(_ & Ek & Et & _) | [(_ & Et & _) | (Hg & Et & _)]]]]);
      unfold Q; rewrite Et, El; split; intros E; try discriminate.
    + now apply es_clave_true.
    + intros k Hk E'.
      assert (es_clave (group m texto) = true)
        by (apply es_clave_true; eauto).
      congruence.
    + exfalso. simpl in Hg. intuition congruence.
    + exfalso. simpl in Hg. intuition congruence.
  - intros. exact I.
  - destruct Hbase as [-> | (e & -> & _ & He & _)]; [exact Hb|].
    apply Forall_app. split; [exact Hb|].
    constructor; [|constructor].
    split; intros E; rewrite He in E; discriminate.
Qed.

Lemma X9_palabras_clave_witness :
  Forall (fun t =>
            (tipo t = "PALABRA_CLAVE" ->
             exists k, In k PALABRAS_CLAVE /\ lexema t = str k)
            /\ (tipo t = "IDENT" ->
                forall k, In k PALABRAS_CLAVE -> lexema t <> str k))
    [mkToken (str "si") "PALABRA_CLAVE"
       [("fila", VInt 1%Z); ("columna", VInt 1%Z)];
     mkToken (str "sino") "IDENT"
       [("fila", VInt 1%Z); ("columna", VInt 4%Z)]].
Proof.
  apply (X9_palabras_clave (estricto false) (str "si sino")).
  vm_compute. reflexivity.
Defined.

Lemma matches_puede (c : char) (r : regex) (u : text) :
  matches r u -> In c u -> puede c r = true.
Proof.
  induction 1 as [|x|items x Hx|items x Hx|r1 r2 u v _ IH1 _ IH2
                  |r1 r2 u _ IH|r1 r2 u _ IH| |r u v _ IH1 _ IH2];
    simpl; intros Hin; try contradiction.
  - destruct Hin as [->|[]]. apply N.eqb_refl.
  - destruct Hin as [->|[]]. exact Hx.
  - destruct Hin as [->|[]]. now rewrite Hx.
  - apply in_app_or in Hin. apply orb_true_iff. tauto.
  - apply orb_true_iff. auto.
  - apply orb_true_iff. auto.
  - apply in_app_or in Hin. simpl in IH2. tauto.
Qed.

(** X10.  Only [NL] tokens hold a newline: the lexeme of any other token a
    call returns has none. *)
Theorem X10_lexema_sin_salto (self : Explorador) (texto : text)
    (toks : list Token) :
  tokenizar self texto = Return toks ->
  Forall (fun t => tipo t <> "NL" -> ~ In LF (lexema t)) toks.
Proof.
  intros H.
  destruct (tokenizar_inv self texto (fun _ => True)
              (fun t => tipo t <> "NL" -> ~ In LF (lexema t))
              (fun t => ~ In LF (lexema t)))
    with (toks := toks) as (base & Hb & Hbase); try exact I; try exact H.
  - intros st m st1 _ _ _ Hle Hm _. split; [exact I|].
    destruct (group_matches _ _ Hle Hm) as (r & Hin & Hr).
    apply Forall_forall. intros t Ht Hnl HLF.
    destruct (emitidos_spec _ _ _ _ _ _ _ Hin Ht) as (El & _ & _).
    rewrite El in HLF. apply (matches_puede LF r _ Hr) in HLF.
    unfold TOKEN_SPEC in Hin. simpl in Hin.
    destruct Hin as [E|[E|[E|[E|[E|[E|[E|[E|[E|[E|[]]]]]]]]]]];
      injection E as Eg Er; subst r; try discriminate HLF;
      rewrite <- Eg in Ht; unfold emitidos in Ht; simpl in Ht;
      try contradiction.
    destruct (con_nuevaslineas self); [|contradiction].
    destruct Ht as [<-|[]]. apply Hnl. reflexivity.
  - intros st _ _ Hsr _ _ HLF. simpl in HLF.
    apply slice_In_skipn in HLF.
    destruct HLF as (q & rest & Hq1 & Hq2 & E).
    specialize (Hsr q Hq1 Hq2). rewrite E in Hsr.
    exact (MASTER_RE_empieza LF rest eq_refl Hsr).
  - destruct Hbase as [-> | (e & -> & He & _)]; [exact Hb|].
    apply Forall_app. split; [exact Hb|].
    constructor; [auto | constructor].
Qed.

Lemma X10_lexema_sin_salto_witness :
  Forall (fun t => tipo t <> "NL" -> ~ In LF (lexema t))
    [mkToken (str "a") "IDENT" [("fila", VInt 1%Z); ("columna", VInt 1%Z)];
     mkToken [LF] "NL" [("fila", VInt 1%Z); ("columna", VInt 2%Z)]].
Proof.
  apply (X10_lexema_sin_salto (estricto true) (str "a" ++ [LF])).
  vm_compute. reflexivity.
Defined.

(** ** Further properties: errors and the two options *)

Section Modos.

Variable self : Explorador.
Variable texto : text.

Lemma desde_Raise (ms : list Match) :
  forall st e, desde self texto ms st = Raise e ->
    (tolerante self = true /\ e = TypeError)
    \/ (tolerante self = false /\
        exists al_final fila col excerpt,
          e = ExploradorError (mensaje al_final fila col excerpt)).
Proof.
  induction ms as [|m ms IH]; intros st e H.
  - unfold desde in H. simpl in H. unfold resto in H.
    destruct (pos st <? length texto); [|discriminate].
    destruct (negb _); [|discriminate].
    destruct (tolerante self); [discriminate|].
    injection H as <-. right. split; [reflexivity|]. eauto 10.
  - rewrite desde_cons in H.
    pose proof (cuerpo_cases self texto st m) as Hc.
    destruct (hueco_cases self texto st (m_start m))
      as [[E _] | [(_ & _ & Ht & E) | (_ & _ & Hs & E)]];
      rewrite E in Hc.
    + destruct Hc as (st1 & Hc & _). rewrite Hc in H. simpl in H.
      exact (IH st1 e H).
    + rewrite Hc in H. injection H as <-. now left.
    + rewrite Hc in H. injection H as <-. right.
      split; [exact Hs|]. eauto 10.
Qed.

(** With no gap that holds a character that is not white space, the loop
    and what follows it return. *)
Lemma desde_limpio (ms : list Match) :
  forall st,
    existsb hueco_malo (segmentos texto (pos st) ms) = false ->
    exists toks, desde self texto ms st = Return toks.
Proof.
  induction ms as [|m ms IH]; intros st H.
  - unfold desde. simpl in *.
    destruct (resto_cases self texto st)
      as [E | (Hp & Hm & _)]; [eauto|].
    apply Nat.ltb_lt in Hp. rewrite Hp in H. simpl in H.
    rewrite Hm in H. discriminate.
  - rewrite desde_cons. simpl in H. rewrite existsb_app in H.
    apply orb_false_iff in H. destruct H as [Hg H]. simpl in H.
    pose proof (cuerpo_cases self texto st m) as Hc.
    destruct (hueco_cases self texto st (m_start m))
      as [[E _] | [(Hne & Hm & _) | (Hne & Hm & _)]].
    + rewrite E in Hc. destruct Hc as (st1 & -> & Hpos & _). simpl.
      apply IH. now rewrite Hpos.
    + apply Nat.eqb_neq in Hne. rewrite Hne in Hg. simpl in Hg.
      rewrite Hm in Hg. discriminate.
    + apply Nat.eqb_neq in Hne. rewrite Hne in Hg. simpl in Hg.
      rewrite Hm in Hg. discriminate.
Qed.

(** In tolerant mode it is enough that no gap before a match does. *)
Lemma desde_tolerante_limpio (Ht : tolerante self = true)
    (ms : list Match) :
  forall st,
    existsb malo (huecos_internos texto (pos st) ms) = false ->
    exists toks, desde self texto ms st = Return toks.
Proof.
  induction ms as [|m ms IH]; intros st H.
  - unfold desde. simpl.
    destruct (resto_cases self texto st)
      as [E | (_ & _ & [(_ & t & E & _) | (Hs & _)])];
      [eauto | eauto | congruence].
  - rewrite desde_cons. simpl in H. rewrite existsb_app in H.
    apply orb_false_iff in H. destruct H as [Hg H].
    pose proof (cuerpo_cases self texto st m) as Hc.
    destruct (hueco_cases self texto st (m_start m))
      as [[E _] | [(Hne & Hm & _) | (Hne & Hm & _)]].
    + rewrite E in Hc. destruct Hc as (st1 & -> & Hpos & _). simpl.
      apply IH. now rewrite Hpos.
    + apply Nat.eqb_neq in Hne. rewrite Hne in Hg. simpl in Hg.
      rewrite Hm in Hg. discriminate.
    + apply Nat.eqb_neq in Hne. rewrite Hne in Hg. simpl in Hg.
      rewrite Hm in Hg. discriminate.
Qed.

End Modos.

(** X11.  A call that raises does so by its mode: in tolerant mode the
    exception is [TypeError], never [ExploradorError]; in strict mode it is
    [ExploradorError] with one of the two messages of the source, never
    [TypeError]. *)
Theorem X11_error_segun_modo (self : Explorador) (texto : text)
    (e : Exception) :
  tokenizar self texto = Raise e ->
  (tolerante self = true /\ e = TypeError)
  \/ (tolerante self = false /\
      exists al_final fila col excerpt,
        e = ExploradorError (mensaje al_final fila col excerpt)).
Proof.
  intros H. destruct (finditer_defined texto) as (ms & Hfi & _).
  rewrite (@tokenizar_desde self texto ms Hfi) in H.
  exact (desde_Raise self texto ms _ e H).
Qed.

Lemma X11_error_segun_modo_witness :
  (true = true /\ TypeError = TypeError)
  \/ (true = false /\
      exists al_final fila col excerpt,
        TypeError = ExploradorError (mensaje al_final fila col excerpt)).
Proof.
  apply (X11_error_segun_modo (tolerante_ false) (str "x @ y") TypeError).
  vm_compute. reflexivity.
Defined.

Lemma estricto_limpio (nl : bool) (texto : text) (ms : list Match) :
  finditer texto = Some ms ->
  (exists toks, tokenizar (estricto nl) texto = Return toks) ->
  existsb hueco_malo (segmentos texto 0 ms) = false.
Proof.
  intros Hfi (toks & H).
  rewrite (@tokenizar_desde (estricto nl) texto ms Hfi) in H.
  destruct (existsb hueco_malo (segmentos texto 0 ms)) eqn:E;
    [|reflexivity].
  exfalso. apply existsb_exists in E. destruct E as (sg & Hin & Hm).
  destruct sg as [chunk|]; [|discriminate]. simpl in Hm.
  destruct (@desde_estricto_malo (estricto nl) texto eq_refl ms
              (mkEstado [] 1%Z 0%Z 0) chunk Hin Hm) as (msg & E).
  congruence.
Qed.

(** X12.  In strict mode a call returns exactly when no gap of the input
    holds a character that is not white space. *)
Theorem X12_estricto_devuelve (nl : bool) (texto : text)
    (ms : list Match) :
  finditer texto = Some ms ->
  (exists toks, tokenizar (estricto nl) texto = Return toks)
  <-> existsb hueco_malo (segmentos texto 0 ms) = false.
Proof.
  intros Hfi. split.
  - apply estricto_limpio. exact Hfi.
  - intros H. rewrite (@tokenizar_desde (estricto nl) texto ms Hfi).
    apply desde_limpio. exact H.
Qed.

Lemma X12_estricto_devuelve_witness :
  (exists toks, tokenizar (estricto false) (str "a b") = Return toks)
  <-> existsb hueco_malo
        (segmentos (str "a b") 0
           [mkMatch 0 1 "IDENT"; mkMatch 1 2 "ESPACIO"; mkMatch 2 3 "IDENT"])
      = false.
Proof.
  apply (X12_estricto_devuelve false (str "a b")). vm_compute. reflexivity.
Defined.

Lemma desde_limpio_modo (nl : bool) (texto : text) (ms : list Match) :
  forall st,
    existsb hueco_malo (segmentos texto (pos st) ms) = false ->
    desde (tolerante_ nl) texto ms st = desde (estricto nl) texto ms st.
Proof.
  induction ms as [|m ms IH]; intros st H.
  - unfold desde, resto. simpl in *.
    rewrite !_consume_desconocido_spec.
    destruct (pos st <? length texto); [|reflexivity].
    simpl in H. rewrite orb_false_r in H. rewrite H. reflexivity.
  - rewrite !desde_cons. simpl in H. rewrite existsb_app in H.
    apply orb_false_iff in H. destruct H as [Hg H]. simpl in H.
    assert (Hh : forall self, hueco self texto st (m_start m) = Return tt).
    { intros self.
      destruct (hueco_cases self texto st (m_start m))
        as [[E _] | [(Hne & Hm & _) | (Hne & Hm & _)]]; [exact E| |];
        apply Nat.eqb_neq in Hne; rewrite Hne in Hg; simpl in Hg;
        rewrite Hm in Hg; discriminate. }
    assert (Ec : cuerpo (tolerante_ nl) texto st m
                 = cuerpo (estricto nl) texto st m).
    { unfold cuerpo. rewrite !Hh. reflexivity. }
    rewrite Ec.
    pose proof (cuerpo_cases (estricto nl) texto st m) as Hc.
    rewrite Hh in Hc. destruct Hc as (st1 & -> & Hpos & _). simpl.
    apply IH. now rewrite Hpos.
Qed.

(** X13.  What strict mode returns, tolerant mode returns too: on an input
    strict mode accepts, the two modes give the same tokens. *)
Theorem X13_estricto_en_tolerante (nl : bool) (texto : text)
    (toks : list Token) :
  tokenizar (estricto nl) texto = Return toks ->
  tokenizar (tolerante_ nl) texto = Return toks.
Proof.
  intros H. destruct (finditer_defined texto) as (ms & Hfi & _).
  rewrite (@tokenizar_desde (tolerante_ nl) texto ms Hfi).
  rewrite desde_limpio_modo.
  - rewrite <- (@tokenizar_desde (estricto nl) texto ms Hfi). exact H.
  - apply (estricto_limpio nl texto ms Hfi). eauto.
Qed.

Lemma X13_estricto_en_tolerante_witness :
  tokenizar (tolerante_ false) (str "x = 1")
  = Return [mkToken (str "x") "IDENT"
              [("fila", VInt 1%Z); ("columna", VInt 1%Z)];
            mkToken (str "=") "OPERADOR"
              [("fila", VInt 1%Z); ("columna", VInt 3%Z)];
            mkToken (str "1") "NUM_ENTERO"
              [("fila", VInt 1%Z); ("columna", VInt 5%Z)]].
Proof.
  apply (X13_estricto_en_tolerante false (str "x = 1")).
  vm_compute. reflexivity.
Defined.

(** X14.  In tolerant mode a call raises [TypeError] exactly when some gap
    that has a match after it holds a character that is not white space;
    otherwise it returns. *)
Theorem X14_tolerante_TypeError (nl : bool) (texto : text)
    (ms : list Match) :
  finditer texto = Some ms ->
  (tokenizar (tolerante_ nl) texto = Raise TypeError
   <-> existsb malo (huecos_internos texto 0 ms) = true)
  /\ ((exists toks, tokenizar (tolerante_ nl) texto = Return toks)
      <-> existsb malo (huecos_internos texto 0 ms) = false).
Proof.
  intros Hfi. rewrite (@tokenizar_desde (tolerante_ nl) texto ms Hfi).
  assert (Hbad : existsb malo (huecos_internos texto 0 ms) = true ->
                 desde (tolerante_ nl) texto ms (mkEstado [] 1%Z 0%Z 0)
                 = Raise TypeError).
  { intros H. apply existsb_exists in H. destruct H as (chunk & Hin & Hm).
    exact (@desde_tolerante_malo (tolerante_ nl) texto eq_refl ms
             (mkEstado [] 1%Z 0%Z 0) chunk Hin Hm). }
  assert (Hok : existsb malo (huecos_internos texto 0 ms) = false ->
                exists toks,
                  desde (tolerante_ nl) texto ms (mkEstado [] 1%Z 0%Z 0)
                  = Return toks).
  { intros H.
    exact (desde_tolerante_limpio (tolerante_ nl) texto eq_refl ms
             (mkEstado [] 1%Z 0%Z 0) H). }
  split; split.
  - intros H.
    destruct (existsb malo (huecos_internos texto 0 ms)); [reflexivity|].
    destruct (Hok eq_refl) as (toks & E). congruence.
  - exact Hbad.
  - intros (toks & H).
    destruct (existsb malo (huecos_internos texto 0 ms)); [|reflexivity].
    rewrite (Hbad eq_refl) in H. discriminate.
  - exact Hok.
Qed.

Lemma X14_tolerante_TypeError_witness :
  (tokenizar (tolerante_ false) (str "x @ y") = Raise TypeError
   <-> existsb malo
         (huecos_internos (str "x @ y") 0
            [mkMatch 0 1 "IDENT"; mkMatch 1 2 "ESPACIO";
             mkMatch 3 4 "ESPACIO"; mkMatch 4 5 "IDENT"]) = true)
  /\ ((exists toks, tokenizar (tolerante_ false) (str "x @ y") = Return toks)
      <-> existsb malo
            (huecos_internos (str "x @ y") 0
               [mkMatch 0 1 "IDENT"; mkMatch 1 2 "ESPACIO";
                mkMatch 3 4 "ESPACIO"; mkMatch 4 5 "IDENT"]) = false).
Proof.
  apply (X14_tolerante_TypeError false (str "x @ y")).
  vm_compute. reflexivity.
Defined.

(** *** Keeping the newlines *)

Lemma sin_NL_app (a b : list Token) : sin_NL (a ++ b) = sin_NL a ++ sin_NL b.
Proof. apply filter_app. Qed.

Lemma _clasificar_no_NL (g : string) (lx : text) :
  String.eqb g "NL" = false ->
  String.eqb (fst (_clasificar g lx)) "NL" = false.
Proof.
  intros H. unfold _clasificar.
  destruct (String.eqb g "IDENT");
    [destruct (existsb _ _); reflexivity|].
  destruct (String.eqb g "NUM_ENTERO"); [reflexivity|].
  destruct (String.eqb g "NUM_FLOTANTE"); [reflexivity|].
  destruct (String.eqb g "CADENA"); [reflexivity|].
  destruct (String.eqb g "OPERADOR"); [reflexivity|].
  destruct (String.eqb g "SIMBOLO"); [reflexivity|].
  exact H.
Qed.

Section Saltos.

Variable tol : bool.
Variable texto : text.

Let con := mkExplorador true tol.
Let sin := mkExplorador false tol.

Lemma hueco_parejos (st_t st_f : estado) (i : nat) :
  parejos st_t st_f -> hueco sin texto st_f i = hueco con texto st_t i.
Proof.
  intros (_ & El & Eli & Ep). unfold hueco.
  rewrite !_consume_desconocido_spec, El, Eli, Ep. reflexivity.
Qed.

Lemma cuerpo_parejos (st_t st_f : estado) (m : Match) :
  parejos st_t st_f ->
  match cuerpo con texto st_t m, cuerpo sin texto st_f m with
  | Return a, Return b => parejos a b
  | Raise e1, Raise e2 => e1 = e2
  | _, _ => False
  end.
Proof.
  intros Hp. unfold cuerpo. rewrite (hueco_parejos _ _ _ Hp).
  destruct Hp as (Et & El & Eli & Ep).
  destruct (hueco con texto st_t (m_start m)) as [[]|e|] eqn:Eh;
    [|reflexivity|].
  - unfold bind. destruct (String.eqb (lastgroup m) "NL") eqn:En.
    + unfold parejos. simpl. rewrite sin_NL_app, Et, El, Eli.
      simpl. rewrite app_nil_r. auto.
    + destruct (existsb _ _).
      * unfold parejos. simpl. auto.
      * pose proof (_clasificar_no_NL _ (group m texto) En) as Hn.
        destruct (_clasificar _ _) as [t1 a1]. simpl in Hn.
        unfold parejos. simpl. rewrite sin_NL_app, Et, El, Eli.
        unfold sin_NL at 2. simpl. unfold es_NL. simpl. rewrite Hn.
        simpl. auto.
  - pose proof (hueco_cases con texto st_t (m_start m)) as Hc.
    destruct Hc as [[E _] | [(_ & _ & _ & E) | (_ & _ & _ & E)]];
      congruence.
Qed.

Lemma resto_parejos (st_t st_f : estado) :
  parejos st_t st_f ->
  resto sin texto st_f
  = (toks <- resto con texto st_t ;; Return (sin_NL toks)).
Proof.
  intros (Et & El & Eli & Ep). unfold resto.
  rewrite !_consume_desconocido_spec, Et, El, Eli, Ep.
  destruct (pos st_t <? length texto); [|reflexivity].
  destruct (negb _); [|reflexivity].
  simpl. destruct tol; [|reflexivity].
  simpl. now rewrite sin_NL_app.
Qed.

Lemma desde_parejos (ms : list Match) :
  forall st_t st_f, parejos st_t st_f ->
    desde sin texto ms st_f
    = (toks <- desde con texto ms st_t ;; Return (sin_NL toks)).
Proof.
  induction ms as [|m ms IH]; intros st_t st_f Hp.
  - unfold desde. simpl. now apply resto_parejos.
  - rewrite !desde_cons.
    pose proof (cuerpo_parejos st_t st_f m Hp) as Hc.
    destruct (cuerpo con texto st_t m) as [a|e1|];
      destruct (cuerpo sin texto st_f m) as [b|e2|]; try contradiction.
    + simpl. now apply IH.
    + simpl. now subst.
Qed.

End Saltos.

(** X15.  Keeping the newlines changes nothing but the [NL] tokens: a call
    that drops them gives what the call that keeps them gives, with the
    [NL] tokens left out, and raises the same exception when that one
    raises. *)
Theorem X15_con_nuevaslineas (tol : bool) (texto : text) :
  tokenizar (mkExplorador false tol) texto
  = (toks <- tokenizar (mkExplorador true tol) texto ;;
     Return (sin_NL toks)).
Proof.
  unfold tokenizar. destruct (finditer texto) as [ms|]; [|reflexivity].
  apply (desde_parejos tol texto ms). repeat split.
Qed.

(** ** Further properties: the two listings *)

Lemma In_join (c : char) (sep : text) :
  forall parts, In c (join sep parts) ->
    In c sep \/ exists p, In p parts /\ In c p.
Proof.
  induction parts as [|x parts IH]; intros H; [contradiction|].
  destruct parts as [|y parts].
  - right. exists x. simpl. auto.
  - change (join sep (x :: y :: parts))
      with (x ++ sep ++ join sep (y :: parts)) in H.
    apply in_app_or in H. destruct H as [H|H].
    + right. exists x. simpl. auto.
    + apply in_app_or in H. destruct H as [H|H]; [now left|].
      destruct (IH H) as [H'|(p & Hp & Hc)]; [now left|].
      right. exists p. split; [now right | exact Hc].
Qed.

Lemma hex_no_LF (n : N) : hex n <> LF.
Proof.
  unfold hex, LF. destruct (n <? 10)%N; lia.
Qed.

Lemma json_char_sin_salto (c : char) : ~ In LF (json_char c).
Proof.
  unfold json_char.
  repeat match goal with
         | |- context [if ?b then _ else _] => destruct b eqn:?
         end;
    simpl; intros H;
    repeat (destruct H as [H|H]; [try discriminate H|]); try contradiction.
  - exact (hex_no_LF _ H).
  - exact (hex_no_LF _ H).
  - match goal with E : (c =? LF)%N = false |- _ => apply N.eqb_neq in E end.
    contradiction.
Qed.

Lemma json_str_sin_salto (s : text) : ~ In LF (json_str s).
Proof.
  unfold json_str. intros H. simpl in H. destruct H as [H|H];
    [discriminate|].
  apply in_app_or in H. destruct H as [H|[H|[]]]; [|discriminate].
  apply in_flat_map in H. destruct H as (c & _ & H).
  exact (json_char_sin_salto c H).
Qed.

Lemma string_of_uint_sin_salto (d : Decimal.uint) :
  ~ In LF (str (NilEmpty.string_of_uint d)).
Proof.
  induction d; simpl; intros H;
    try (destruct H as [H|H]; [discriminate | contradiction]);
    contradiction.
Qed.

Lemma repr_sin_salto (z : Z) : ~ In LF (repr z).
Proof.
  unfold repr. destruct (Z.to_int z) as [d|d];
    unfold NilZero.string_of_int, NilZero.string_of_uint.
  - destruct d; try apply string_of_uint_sin_salto.
    simpl. intros [H|[]]. discriminate.
  - intros H. change (In LF (ch "-" :: str match d with
                                           | Decimal.Nil => "0"
                                           | _ => NilEmpty.string_of_uint d
                                           end)) in H.
    destruct H as [H|H]; [discriminate|].
    destruct d; try exact (string_of_uint_sin_salto _ H).
    simpl in H. destruct H as [H|[]]. discriminate.
Qed.

(** What [json.dumps] writes holds no newline. *)
Lemma json_dumps_sin_salto (d : dict) : ~ In LF (json_dumps d).
Proof.
  unfold json_dumps. intros H.
  apply in_app_or in H. destruct H as [H|H];
    [simpl in H; destruct H as [H|[]]; discriminate|].
  apply in_app_or in H. destruct H as [H|H];
    [|simpl in H; destruct H as [H|[]]; discriminate].
  apply In_join in H. destruct H as [H|(p & Hp & H)].
  - simpl in H. destruct H as [H|[H|[]]]; discriminate.
  - apply in_map_iff in Hp. destruct Hp as ([k v] & <- & _).
    cbn [fst snd] in H. apply in_app_or in H. destruct H as [H|H];
      [exact (json_str_sin_salto _ H)|].
    apply in_app_or in H. destruct H as [H|H].
    + simpl in H. destruct H as [H|[H|[]]]; discriminate.
    + destruct v; [exact (repr_sin_salto _ H)|exact (json_str_sin_salto _ H)].
Qed.

Lemma count_sin_salto (s : text) : ~ In LF s -> count s LF = 0%Z.
Proof.
  intros H. unfold count.
  replace (filter (N.eqb LF) s) with (@nil char); [reflexivity|].
  symmetry. induction s as [|c s IH]; [reflexivity|].
  cbn [filter]. destruct (N.eqb LF c) eqn:E.
  - apply N.eqb_eq in E. exfalso. apply H. left. now symmetry.
  - apply IH. intros H'. apply H. now right.
Qed.

Lemma count_join_LF (parts : list text) :
  Forall (fun p => ~ In LF p) parts ->
  count (join [LF] parts) LF = Z.of_nat (length parts - 1).
Proof.
  induction 1 as [|x parts Hx Hparts IH]; [reflexivity|].
  destruct parts as [|y parts].
  - simpl. now apply count_sin_salto.
  - change (join [LF] (x :: y :: parts))
      with (x ++ [LF] ++ join [LF] (y :: parts)).
    rewrite !count_app, IH, (count_sin_salto x Hx).
    change (count [LF] LF) with 1%Z. simpl length. lia.
Qed.

Lemma emitidos_tipo (self : Explorador) (g : string) (r : regex)
    (lx : text) (f c : Z) (t : Token) :
  In (g, r) TOKEN_SPEC -> In t (emitidos self g lx f c) ->
  In (tipo t) TIPOS \/ (con_nuevaslineas self = true /\ tipo t = "NL").
Proof.
  intros Hin Ht.
  destruct (emitidos_spec _ _ _ _ _ _ _ Hin Ht)
    as (_ & _ & [(_ & Hn & -> & _) | [(_ & _ & -> & _) |
        [(_ & _ & -> & _) | [(_ & -> & _) | (Hg & -> & _)]]]]);
    unfold TIPOS; simpl; auto 10.
  simpl in Hg. intuition (subst; auto 10).
Qed.

Lemma emitidos_sin_salto (self : Explorador) (g : string) (r : regex)
    (lx : text) (f c : Z) (t : Token) :
  In (g, r) TOKEN_SPEC -> matches r lx ->
  In t (emitidos self g lx f c) ->
  tipo t <> "NL" -> ~ In LF (lexema t).
Proof.
  intros Hin Hr Ht Hnl HLF.
  destruct (emitidos_spec _ _ _ _ _ _ _ Hin Ht) as (El & _ & _).
  rewrite El in HLF. apply (matches_puede LF r _ Hr) in HLF.
  unfold TOKEN_SPEC in Hin. simpl in Hin.
  destruct Hin as [E|[E|[E|[E|[E|[E|[E|[E|[E|[E|[]]]]]]]]]]];
    injection E as Eg Er; subst r; try discriminate HLF;
    rewrite <- Eg in Ht; unfold emitidos in Ht; simpl in Ht;
    try contradiction.
  destruct (con_nuevaslineas self); [|contradiction].
  destruct Ht as [<-|[]]. apply Hnl. reflexivity.
Qed.

(** The newlines of the listing, with the subtraction of natural numbers:
    none for the empty list. *)
Lemma saltos_del_listado (tol : bool) (texto : text)
    (toks : list Token) :
  tokenizar (mkExplorador false tol) texto = Return toks ->
  count (tokens_a_texto toks) LF = Z.of_nat (length toks - 1).
Proof.
  intros H. unfold tokens_a_texto. rewrite count_join_LF.
  - now rewrite length_map.
  - set (Q := fun t => ~ In LF (linea_texto t)).
    assert (HQ : forall t, (In (tipo t) TIPOS \/ tipo t = "ERROR") ->
                           ~ In LF (lexema t) -> Q t).
    { intros t Ht Hl HLF. unfold linea_texto in HLF.
      apply in_app_or in HLF. destruct HLF as [HLF|HLF];
        [simpl in HLF; intuition discriminate|].
      apply in_app_or in HLF. destruct HLF as [HLF|HLF].
      { destruct Ht as [Ht|Ht].
        - unfold TIPOS in Ht. simpl in Ht.
          repeat (destruct Ht as [Ht|Ht];
                  [rewrite <- Ht in HLF; simpl in HLF;
                   intuition discriminate|]).
          contradiction.
        - rewrite Ht in HLF; simpl in HLF; intuition discriminate. }
      apply in_app_or in HLF. destruct HLF as [HLF|HLF];
        [simpl in HLF; intuition discriminate|].
      apply in_app_or in HLF. destruct HLF as [HLF|HLF];
        [exact (Hl HLF)|].
      apply in_app_or in HLF. destruct HLF as [HLF|HLF];
        [simpl in HLF; intuition discriminate|].
      apply in_app_or in HLF. destruct HLF as [HLF|HLF];
        [exact (json_dumps_sin_salto _ HLF)|].
      simpl in HLF; intuition discriminate. }
    destruct (tokenizar_inv (mkExplorador false tol) texto
                (fun _ => True) Q Q)
      with (toks := toks) as (base & Hb & Hbase); try exact I; try exact H.
    + intros st m st1 _ _ _ Hle Hm _. split; [exact I|].
      destruct (group_matches _ _ Hle Hm) as (r & Hin & Hr).
      apply Forall_forall. intros t Ht.
      destruct (emitidos_tipo _ _ _ _ _ _ _ Hin Ht) as [Hk | [Hnl _]];
        [|discriminate].
      apply HQ; [now left|].
      apply (emitidos_sin_salto _ _ _ _ _ _ _ Hin Hr Ht).
      intros E. rewrite E in Hk. unfold TIPOS in Hk. simpl in Hk.
      intuition discriminate.
    + intros st _ _ Hsr _ _. apply HQ; [now right|].
      simpl. intros HLF. apply slice_In_skipn in HLF.
      destruct HLF as (q & rest & Hq1 & Hq2 & E).
      specialize (Hsr q Hq1 Hq2). rewrite E in Hsr.
      exact (MASTER_RE_empieza LF rest eq_refl Hsr).
    + apply Forall_map.
      destruct Hbase as [-> | (e & -> & He & _)]; [exact Hb|].
      apply Forall_app. split; [exact Hb|].
      constructor; [exact He | constructor].
Qed.

(** X16.  When the newlines are dropped, [tokens_a_texto] writes the
    tokens of a call one to a line: for no token the text is empty, and
    otherwise its lines, one more than its newlines, are as many as the
    tokens. *)
Theorem X16_una_linea_por_token (tol : bool) (texto : text)
    (toks : list Token) :
  tokenizar (mkExplorador false tol) texto = Return toks ->
  (toks = [] -> tokens_a_texto toks = [])
  /\ (toks <> [] ->
      (count (tokens_a_texto toks) LF + 1 = Z.of_nat (length toks))%Z).
Proof.
  intros H. split.
  - intros ->. reflexivity.
  - intros Hne. rewrite (saltos_del_listado tol texto toks H).
    destruct toks as [|t toks]; [contradiction|]. simpl length. lia.
Qed.

Lemma X16_una_linea_por_token_witness :
  (count (tokens_a_texto
            [mkToken (str "a") "IDENT"
               [("fila", VInt 1%Z); ("columna", VInt 1%Z)];
             mkToken (str "b") "IDENT"
               [("fila", VInt 2%Z); ("columna", VInt 1%Z)]]) LF + 1
   = Z.of_nat 2)%Z
  /\ tokens_a_texto [] = [].
Proof.
  split.
  - apply (X16_una_linea_por_token false (str "a" ++ [LF] ++ str "b"));
      [vm_compute; reflexivity | discriminate].
  - apply (X16_una_linea_por_token false (str "// c") []);
      [vm_compute; reflexivity | reflexivity].
Defined.

(** *** The table *)







(** X18.  [_consume_desconocido] refuses a chunk exactly when the chunk
    holds a character that is not white space; the empty chunk and the
    chunks of white space alone pass, whatever the other arguments. *)
Theorem X18_consume_desconocido (chunk : text) (linea col0 : Z)
    (texto : text) (tokens : list Token) :
  _consume_desconocido chunk linea col0 texto tokens = false
  <-> exists c, In c chunk /\ is_space c = false.
Proof.
  rewrite _consume_desconocido_spec, negb_false_iff.
  unfold malo. rewrite existsb_exists.
  split; intros (c & Hin & Hc); exists c; (split; [exact Hin|]).
  - now apply negb_true_iff.
  - now apply negb_true_iff.
Qed.

Lemma subseq_length (A : Type) (l1 l2 : list A) :
  subseq l1 l2 -> length l1 <= length l2.
Proof. induction 1; simpl; lia. Qed.

Lemma concat_length_ge (l : list text) :
  Forall (fun s => s <> []) l -> length l <= length (concat l).
Proof.
  induction 1 as [|s l Hs _ IH]; [reflexivity|].
  simpl. rewrite length_app. destruct s; [contradiction|]. simpl. lia.
Qed.

(** X19.  A call never returns more tokens than the input has
    characters. *)
Theorem X19_cuantos_tokens (self : Explorador) (texto : text)
    (toks : list Token) :
  tokenizar self texto = Return toks -> length toks <= length texto.
Proof.
  intros H. destruct (finditer_defined texto) as (ms & Hfi & Hch).
  rewrite (@tokenizar_desde self texto ms Hfi) in H.
  apply desde_subseq in H. destruct H as (nuevos & -> & Hsub).
  simpl in *. apply subseq_length in Hsub. rewrite !length_map in Hsub.
  pose proof (@segmentos_concat texto ms 0 Hch (Nat.le_0_l _)) as Ec.
  simpl in Ec.
  assert (Hne : Forall (fun s => s <> [])
                       (map span (segmentos texto 0 ms))).
  { apply Forall_map. eapply Forall_impl;
      [|apply segmentos_tramos; exact Hch].
    intros sg Hsg. eapply tramo_nonempty. exact Hsg. }
  apply concat_length_ge in Hne. rewrite Ec, length_map in Hne. lia.
Qed.

Lemma X19_cuantos_tokens_witness :
  length [mkToken (str "&&") "OPERADOR"
            [("fila", VInt 1%Z); ("columna", VInt 1%Z)];
          mkToken (str "=") "OPERADOR"
            [("fila", VInt 1%Z); ("columna", VInt 3%Z)]]
  <= length (str "&&=").
Proof.
  apply (X19_cuantos_tokens (estricto false) (str "&&=")).
  vm_compute. reflexivity.
Defined.

(** ** Further properties: what the row counter counts *)

Lemma emitidos_fila (self : Explorador) (g : string) (r : regex)
    (lx : text) (f c : Z) (toks : list Token) :
  con_nuevaslineas self = true ->
  In (g, r) TOKEN_SPEC ->
  filas_ok (if String.eqb g "NL" then f + count lx LF else f)%Z toks ->
  filas_ok f (emitidos self g lx f c ++ toks).
Proof.
  intros Hnl Hin H. unfold TOKEN_SPEC in Hin. simpl in Hin.
  destruct Hin as [E|[E|[E|[E|[E|[E|[E|[E|[E|[E|[]]]]]]]]]]];
    injection E as <- <-; unfold emitidos; simpl in H |- *;
    try exact H;
    try (rewrite Hnl; simpl; split; [reflexivity | exact H]);
    try (split; [reflexivity | exact H]).
  rewrite _clasificar_IDENT. destruct (es_clave lx); simpl;
    (split; [reflexivity | exact H]).
Qed.

Lemma desde_filas (self : Explorador) (texto : text) (ms : list Match) :
  con_nuevaslineas self = true ->
  forall st toks,
    encadenado texto (pos st) ms ->
    desde self texto ms st = Return toks ->
    exists nuevos, toks = tokens st ++ nuevos /\ filas_ok (linea st) nuevos.
Proof.
  intros Hnl. induction ms as [|m ms IH]; intros st toks Hch H.
  - unfold desde in H. simpl in H. apply resto_inv in H.
    destruct H as [-> | (_ & _ & _ & ->)].
    + exists []. rewrite app_nil_r. split; [reflexivity | exact I].
    + eexists. split; [reflexivity|]. simpl. split; [reflexivity | exact I].
  - rewrite desde_cons in H.
    destruct Hch as (_ & _ & Hle & Hm & Hch).
    destruct (cuerpo self texto st m) as [st1| |] eqn:E; try discriminate.
    simpl in H. apply cuerpo_emitidos in E.
    destruct E as (_ & Ep & Et & El & _). rewrite <- Ep in Hch.
    destruct (IH st1 toks Hch H) as (nuevos & -> & Hn).
    destruct (group_matches _ _ Hle Hm) as (r & Hin & _).
    eexists. rewrite Et, <- app_assoc. split; [reflexivity|].
    apply (emitidos_fila self _ r); [exact Hnl | exact Hin|].
    rewrite <- El. exact Hn.
Qed.

(** X20.  With the newlines kept, the row of each token a call returns is
    1 plus the number of newline characters in the [NL] tokens before it:
    the row counter counts the newlines of [NL] matches and no others. *)
Theorem X20_fila_cuenta_NL (tol : bool) (texto : text) (toks : list Token) :
  tokenizar (mkExplorador true tol) texto = Return toks ->
  filas_ok 1 toks.
Proof.
  intros H. destruct (finditer_defined texto) as (ms & Hfi & Hch).
  rewrite (@tokenizar_desde _ texto ms Hfi) in H.
  destruct (desde_filas (mkExplorador true tol) texto ms eq_refl
              (mkEstado [] 1%Z 0%Z 0) toks Hch H) as (nuevos & -> & Hn).
  exact Hn.
Qed.

Lemma X20_fila_cuenta_NL_witness :
  filas_ok 1
    [mkToken (str "a") "IDENT" [("fila", VInt 1%Z); ("columna", VInt 1%Z)];
     mkToken [LF; LF] "NL" [("fila", VInt 1%Z); ("columna", VInt 2%Z)];
     mkToken (str "b") "IDENT" [("fila", VInt 3%Z); ("columna", VInt 1%Z)]].
Proof.
  apply (X20_fila_cuenta_NL false (str "a" ++ [LF; LF] ++ str "b")).
  vm_compute. reflexivity.
Defined.

(** ** Further properties: block comments that are matched *)

Lemma star_bloque_run (A : Type) (k : text -> option A) (a : A)
    (rest : text) :
  k (ch "*" :: ch "/" :: rest) = Some a ->
  forall run n,
    Forall (fun c => c <> ch "*") run ->
    length (run ++ ch "*" :: ch "/" :: rest) <= n ->
    star_loop
      (rmatch (Alt (NoneOf [One (ch "*")])
                   (Seq (Lit (ch "*")) (NoneOf [One (ch "/")]))))
      n (run ++ ch "*" :: ch "/" :: rest) k
    = Some a.
Proof.
  intros Hk. induction run as [|c run IH]; intros n Hrun Hn.
  - destruct n as [|n]; [exact Hk|]. simpl. exact Hk.
  - destruct n as [|n]; [simpl in Hn; lia|].
    inversion Hrun as [|? ? Hc Hrun']; subst.
    apply N.eqb_neq in Hc.
    change ((c :: run) ++ ch "*" :: ch "/" :: rest)
      with (c :: (run ++ ch "*" :: ch "/" :: rest)).
    cbn [star_loop rmatch one_char existsb item_has].
    rewrite Hc. cbn [orb negb].
    replace (length (run ++ ch "*" :: ch "/" :: rest)
             <? length (c :: run ++ ch "*" :: ch "/" :: rest))
      with true
      by (symmetry; apply Nat.ltb_lt; cbn [length];
          apply Nat.lt_succ_diag_r).
    rewrite IH; [reflexivity | assumption |].
    cbn [length app] in Hn. lia.
Qed.

Transparent MASTER_RE.

(** X21.  A block comment whose body holds no asterisk is matched from its
    opener through its closer, newlines included, whatever follows. *)
Theorem X21_bloque_sin_asterisco (body rest : text) :
  Forall (fun c => c <> ch "*") body ->
  MASTER_RE (str "/*" ++ body ++ str "*/" ++ rest)
  = Some ("COMENT_BLOQ", 4 + length body).
Proof.
  intros Hb. unfold MASTER_RE, TOKEN_SPEC, first_rule.
  assert (E : match_len COMENT_BLOQ (str "/*" ++ body ++ str "*/" ++ rest)
              = Some (4 + length body)).
  { unfold match_len, COMENT_BLOQ.
    change (str "/*" ++ body ++ str "*/" ++ rest)
      with (ch "/" :: ch "*" :: (body ++ ch "*" :: ch "/" :: rest)).
    change (rmatch (Seq (Lits (str "/*")) ?r) (ch "/" :: ch "*" :: ?s) ?k)
      with (rmatch r s k).
    change (rmatch (Seq (Star ?r) ?r2) ?s ?k)
      with (star_loop (rmatch r) (length s) s (fun s1 => rmatch r2 s1 k)).
    apply star_bloque_run; [|exact Hb|lia].
    cbn -[Nat.sub length app]. f_equal. cbn [length].
    rewrite length_app. cbn [length]. lia. }
  rewrite E. reflexivity.
Qed.

Opaque MASTER_RE.

Lemma X21_bloque_sin_asterisco_witness :
  MASTER_RE (str "/* c */ x") = Some ("COMENT_BLOQ", 7).
Proof.
  apply (X21_bloque_sin_asterisco (str " c ") (str " x")).
  repeat constructor; discriminate.
Defined.

(** ** Further properties: numbers and identifiers *)

(** The greedy loop over a character class takes the whole run of
    characters of the class. *)
Lemma star_any_run (A : Type) (items : list item) (k : text -> option A)
    (a : A) (s' : text) :
  k s' = Some a ->
  no_sigue (fun c => existsb (fun i => item_has i c) items) s' ->
  forall run n,
    Forall (fun c => existsb (fun i => item_has i c) items = true) run ->
    length (run ++ s') <= n ->
    star_loop (rmatch (Any items)) n (run ++ s') k = Some a.
Proof.
  intros Hk Hs'. induction run as [|c run IH]; intros n Hrun Hn.
  - simpl app. destruct n as [|n]; simpl; [assumption|].
    destruct s' as [|c v]; simpl; [assumption|].
    simpl in Hs'. now rewrite Hs'.
  - destruct n as [|n]; [simpl in Hn; lia|].
    inversion Hrun as [|? ? Hc Hrun']; subst.
    simpl. rewrite Hc.
    rewrite IH; [|assumption|simpl in Hn; lia].
    replace (length (run ++ s') <? S (length (run ++ s'))) with true
      by (symmetry; apply Nat.ltb_lt; lia).
    reflexivity.
Qed.

Lemma es_digito_casos (d : char) :
  es_digito d = true ->
  (d = 48 \/ d = 49 \/ d = 50 \/ d = 51 \/ d = 52 \/ d = 53 \/ d = 54 \/
   d = 55 \/ d = 56 \/ d = 57)%N.
Proof.
  unfold es_digito, digit. simpl. rewrite orb_false_r, andb_true_iff.
  change (N_of_ascii "0") with 48%N. change (N_of_ascii "9") with 57%N.
  rewrite !N.leb_le. lia.
Qed.

Transparent MASTER_RE.

(** At a digit only the two rules of numbers are left. *)
Lemma MASTER_RE_digito (d : char) (s : text) :
  es_digito d = true ->
  MASTER_RE (d :: s)
  = match match_len NUM_FLOTANTE (d :: s) with
    | Some n => Some ("NUM_FLOTANTE", n)
    | None => match match_len NUM_ENTERO (d :: s) with
              | Some n => Some ("NUM_ENTERO", n)
              | None => None
              end
    end.
Proof.
  intros Hd. apply es_digito_casos in Hd.
  unfold MASTER_RE, TOKEN_SPEC, first_rule.
  repeat (destruct Hd as [-> | Hd]);
    try subst d;
    (match goal with
     | |- context [match_len COMENT_BLOQ (?c :: s)] =>
         change (match_len COMENT_BLOQ (c :: s)) with (@None nat);
         change (match_len COMENT_LINEA (c :: s)) with (@None nat);
         change (match_len ESPACIO (c :: s)) with (@None nat);
         change (match_len NL (c :: s)) with (@None nat);
         change (match_len CADENA (c :: s)) with (@None nat)
     end;
     cbv iota beta;
     (destruct (match_len NUM_FLOTANTE _); [reflexivity|]);
     destruct (match_len NUM_ENTERO _); reflexivity).
Qed.

Opaque MASTER_RE.

(** One or more digits, then whatever [k] accepts. *)
Lemma Plus_digitos (A : Type) (k : text -> option A) (a : A)
    (d : char) (ds s' : text) :
  es_digito d = true -> Forall (fun c => es_digito c = true) ds ->
  no_sigue es_digito s' -> k s' = Some a ->
  rmatch (Plus (Any [digit])) (d :: ds ++ s') k = Some a.
Proof.
  intros Hd Hds Hs' Hk. unfold Plus.
  cbn [rmatch one_char]. fold (es_digito d). rewrite Hd.
  apply star_any_run; [exact Hk | exact Hs' | exact Hds | lia].
Qed.

(** X22.  Digits, a dot and digits are taken together as one
    [NUM_FLOTANTE], up to the first character that is not a digit. *)
Theorem X22_numero_flotante (d1 d2 : char) (ds1 ds2 rest : text) :
  Forall (fun c => es_digito c = true) (d1 :: ds1) ->
  Forall (fun c => es_digito c = true) (d2 :: ds2) ->
  no_sigue es_digito rest ->
  MASTER_RE (d1 :: ds1 ++ ch "." :: d2 :: ds2 ++ rest)
  = Some ("NUM_FLOTANTE", length ds1 + length ds2 + 3).
Proof.
  intros H1 H2 Hrest.
  inversion H1 as [|? ? Hd1 Hds1]; subst.
  inversion H2 as [|? ? Hd2 Hds2]; subst.
  rewrite (MASTER_RE_digito d1 _ Hd1).
  assert (E : match_len NUM_FLOTANTE
                (d1 :: ds1 ++ ch "." :: d2 :: ds2 ++ rest)
              = Some (length ds1 + length ds2 + 3)).
  { unfold match_len, NUM_FLOTANTE.
    change (rmatch (Seq ?r1 ?r2) ?s ?k)
      with (rmatch r1 s (fun s1 => rmatch r2 s1 k)).
    apply Plus_digitos; [exact Hd1 | exact Hds1 | reflexivity|].
    change (rmatch (Seq (Lit (ch ".")) ?r) (ch "." :: ?s) ?k)
      with (rmatch r s k).
    apply Plus_digitos; [exact Hd2 | exact Hds2 | exact Hrest|].
    f_equal. cbn [length]. rewrite !length_app. cbn [length].
    rewrite length_app. lia. }
  rewrite E. reflexivity.
Qed.

Lemma X22_numero_flotante_witness :
  MASTER_RE (str "12.50;") = Some ("NUM_FLOTANTE", 5).
Proof.
  apply (X22_numero_flotante (ch "1") (ch "5") (str "2") (str "0") (str ";"));
    repeat constructor.
Defined.

Lemma matches_star_any (items : list item) (r : regex) (w : text) :
  matches r w -> r = Star (Any items) ->
  Forall (fun c => existsb (fun i => item_has i c) items = true) w.
Proof.
  induction 1 as [| | | | | | | |r u v Hu _ Hv IHv]; intros E;
    try discriminate; [constructor|].
  injection E as ->. inversion Hu; subst.
  simpl. constructor; [assumption | now apply IHv].
Qed.

Lemma matches_Plus_Any (items : list item) (e : text) :
  matches (Plus (Any items)) e ->
  exists c w, e = c :: w /\
    Forall (fun c => existsb (fun i => item_has i c) items = true) (c :: w).
Proof.
  unfold Plus. intros H.
  inversion H as [| | | |r1 r2 u v Hu Hv| | | |]; subst.
  inversion Hu; subst.
  exists c, v. split; [reflexivity|].
  constructor; [assumption|].
  exact (matches_star_any items _ v Hv eq_refl).
Qed.

(** What [NUM_FLOTANTE] accepts: digits, a dot, digits. *)
Lemma matches_NUM_FLOTANTE (u : text) :
  matches NUM_FLOTANTE u ->
  exists e1 d2 e2,
    u = e1 ++ ch "." :: d2 :: e2 /\
    Forall (fun c => es_digito c = true) e1 /\ es_digito d2 = true.
Proof.
  unfold NUM_FLOTANTE. intros H.
  inversion H as [| | | |r1 r2 e1 u2 H1 H2| | | |]; subst.
  inversion H2 as [| | | |r1 r2 p e2 Hp He2| | | |]; subst.
  inversion Hp; subst.
  apply matches_Plus_Any in H1. destruct H1 as (c1 & w1 & -> & Hw1).
  apply matches_Plus_Any in He2. destruct He2 as (c2 & w2 & -> & Hw2).
  exists (c1 :: w1), c2, w2. split; [reflexivity|].
  split; [exact Hw1|]. now inversion Hw2.
Qed.

Lemma digitos_y_punto (ds rest : text) :
  Forall (fun c => es_digito c = true) ds ->
  no_sigue es_digito rest ->
  forall e1 t,
    Forall (fun c => es_digito c = true) e1 ->
    ds ++ rest = e1 ++ ch "." :: t -> rest = ch "." :: t.
Proof.
  intros Hds Hrest. induction Hds as [|x ds Hx _ IH]; intros e1 t He1 E.
  - simpl in E. destruct He1 as [|y e1 Hy _]; [exact E|].
    subst rest. simpl in Hrest. congruence.
  - destruct He1 as [|y e1 _ He1]; simpl in E.
    + injection E as -> _. discriminate Hx.
    + injection E as _ E. exact (IH e1 t He1 E).
Qed.

(** X23.  Digits that are not followed by a dot and a digit are taken as
    one [NUM_ENTERO], up to the first character that is not a digit; a dot
    after them is not part of the number. *)
Theorem X23_numero_entero (d : char) (ds rest : text) :
  Forall (fun c => es_digito c = true) (d :: ds) ->
  no_sigue es_digito rest ->
  (forall c v, rest = ch "." :: c :: v -> es_digito c = false) ->
  MASTER_RE (d :: ds ++ rest) = Some ("NUM_ENTERO", S (length ds)).
Proof.
  intros Hds Hrest Hdot.
  inversion Hds as [|? ? Hd Hds']; subst.
  rewrite (MASTER_RE_digito d _ Hd).
  assert (E1 : match_len NUM_FLOTANTE (d :: ds ++ rest) = None).
  { destruct (match_len NUM_FLOTANTE (d :: ds ++ rest)) as [n|] eqn:E;
      [|reflexivity].
    exfalso. apply match_len_sound in E.
    destruct E as (u & v & E & Hu & _).
    apply matches_NUM_FLOTANTE in Hu.
    destruct Hu as (e1 & d2 & e2 & -> & He1 & Hd2).
    rewrite <- app_assoc in E.
    change (d :: ds ++ rest) with ((d :: ds) ++ rest) in E.
    apply (digitos_y_punto _ _ Hds Hrest e1 _ He1) in E.
    simpl in E. rewrite (Hdot d2 _ E) in Hd2. discriminate. }
  assert (E2 : match_len NUM_ENTERO (d :: ds ++ rest)
               = Some (S (length ds))).
  { unfold match_len, NUM_ENTERO.
    apply Plus_digitos; [exact Hd | exact Hds' | exact Hrest|].
    f_equal. cbn [length]. rewrite length_app. lia. }
  rewrite E1, E2. reflexivity.
Qed.

Lemma X23_numero_entero_witness :
  MASTER_RE (str "12.x") = Some ("NUM_ENTERO", 2).
Proof.
  apply (X23_numero_entero (ch "1") (str "2") (str ".x")).
  - repeat constructor.
  - reflexivity.
  - intros c v E. injection E as <- _. reflexivity.
Defined.

Lemma rango_casos (lo n : nat) (c : char) :
  (N.of_nat lo <=? c)%N && (c <=? N.of_nat (lo + n - 1))%N = true ->
  0 < n -> In c (map N.of_nat (seq lo n)).
Proof.
  intros H Hn. apply andb_true_iff in H. destruct H as [H1 H2].
  apply N.leb_le in H1, H2.
  apply in_map_iff. exists (N.to_nat c). split; [apply N2Nat.id|].
  apply in_seq. lia.
Qed.

Lemma es_inicial_casos (c : char) :
  es_inicial c = true ->
  In c (map N.of_nat (seq 65 26) ++ map N.of_nat (seq 97 26) ++ [95%N]).
Proof.
  unfold es_inicial. simpl existsb. rewrite orb_false_r.
  intros H. apply orb_true_iff in H. destruct H as [H|H].
  - apply in_or_app. left. apply (rango_casos 65 26); [exact H | lia].
  - apply orb_true_iff in H. destruct H as [H|H].
    + apply in_or_app. right. apply in_or_app. left.
      apply (rango_casos 97 26); [exact H | lia].
    + apply N.eqb_eq in H. subst c.
      apply in_or_app. right. apply in_or_app. right. left. reflexivity.
Qed.

Transparent MASTER_RE.

(** At a letter or an underscore only the rule of identifiers is left. *)
Lemma MASTER_RE_inicial (c : char) (s : text) :
  es_inicial c = true ->
  MASTER_RE (c :: s)
  = match match_len IDENT (c :: s) with
    | Some n => Some ("IDENT", n)
    | None => None
    end.
Proof.
  intros Hc. apply es_inicial_casos in Hc.
  unfold MASTER_RE, TOKEN_SPEC, first_rule.
  cbv [seq map app] in Hc. cbn [In] in Hc.
  repeat (destruct Hc as [<- | Hc];
          [ match goal with
            | |- context [match_len COMENT_BLOQ (?x :: s)] =>
                change (match_len COMENT_BLOQ (x :: s)) with (@None nat);
                change (match_len COMENT_LINEA (x :: s)) with (@None nat);
                change (match_len ESPACIO (x :: s)) with (@None nat);
                change (match_len NL (x :: s)) with (@None nat);
                change (match_len CADENA (x :: s)) with (@None nat);
                change (match_len NUM_FLOTANTE (x :: s)) with (@None nat);
                change (match_len NUM_ENTERO (x :: s)) with (@None nat);
                change (match_len OPS_RE (x :: s)) with (@None nat);
                change (match_len PUNCT_RE (x :: s)) with (@None nat)
            end;
            reflexivity |]).
  contradiction.
Qed.

Opaque MASTER_RE.

(** X24.  A letter or an underscore and the letters, digits and
    underscores after it are taken together as one identifier, up to the
    first character that is none of these. *)
Theorem X24_identificador (c : char) (run rest : text) :
  es_inicial c = true ->
  Forall (fun x => es_palabra x = true) run ->
  no_sigue es_palabra rest ->
  MASTER_RE (c :: run ++ rest) = Some ("IDENT", S (length run)).
Proof.
  intros Hc Hrun Hrest. rewrite (MASTER_RE_inicial c _ Hc).
  assert (E : match_len IDENT (c :: run ++ rest) = Some (S (length run))).
  { unfold match_len, IDENT. cbn [rmatch one_char].
    fold (es_inicial c). rewrite Hc.
    apply star_any_run; [|exact Hrest|exact Hrun|lia].
    f_equal. cbn [length]. rewrite length_app. lia. }
  rewrite E. reflexivity.
Qed.

Lemma X24_identificador_witness :
  MASTER_RE (str "x_1 = 2") = Some ("IDENT", 3).
Proof.
  apply (X24_identificador (ch "x") (str "_1") (str " = 2")).
  - reflexivity.
  - repeat constructor.
  - reflexivity.
Defined.
